(** * biscuit-forge: relationship resolution and the authorization decision

    A shallow embedding of the Go packages [dblogic] (the relationship
    store client, the usergroup closure and the role-assignment
    aggregator) and [authz] (the Datalog authorizer that is handed to the
    biscuit evaluator), followed by the properties of the design document
    that are settled against them.

    Conventions of the embedding.
    - Go's [int] is 64 bits wide on the platforms the program targets and
      every id is a row id of the store; ids are integers of [Z].
    - A Go function returning [(T, error)] returns [error + T] here
      ([inl] is the non-nil error); [repoRoleStrToEnum], whose zero value
      matters, returns the pair as Go does.
    - The SQLite store is a record of tables (lists of rows, in storage
      order); every statement of the Go code is a query over that record.
      A failure of the driver itself is an input of the model: the
      transaction carries a function saying which statements fail.
    - Statements issued against the store are recorded in a log that is
      threaded through the calls, so that the order of the lookups can be
      stated.
    - [log.Fatalf] ends the process: functions that may call it return an
      [outcome]. *)

From Stdlib Require Import Ascii String.
From Equations Require Import Equations.
From stdpp Require Import base gmap list strings pretty relations.

Local Open Scope Z_scope.

(** ** Go's [error] values *)

(** [ErrorString] is a plain message ([errors.New], or [fmt.Errorf] with
    no wrapped error), [Errorf msg cause] is
    [fmt.Errorf("msg: %w", cause)], and [ErrNoRows] is [sql.ErrNoRows]. *)
Inductive error : Type :=
| ErrNoRows
| ErrorString (msg : string)
| Errorf (msg : string) (cause : error).

(** The [Error()] method. *)
Fixpoint Error (e : error) : string :=
  match e with
  | ErrNoRows => "sql: no rows in result set"
  | ErrorString msg => msg
  | Errorf msg cause => msg +:+ ": " +:+ Error cause
  end.

(** [errors.Is(e, target)]: [target] is [e] or one of the errors [e] wraps. *)
Fixpoint errorsIs (e target : error) : Prop :=
  e = target ∨ match e with Errorf _ cause => errorsIs cause target | _ => False end.

(** The result of a function that may call [log.Fatalf]. *)
Inductive outcome (A : Type) : Type :=
| Returned (a : A)
| Fatal (msg : string).
Arguments Returned {A} a.
Arguments Fatal {A} msg.

(** * Package dblogic *)

Module dblogic.

(** ** Types *)

Definition RepoRoleType : Type := Z.
Definition UnknownRole : RepoRoleType := 0.
Definition OwnerRole : RepoRoleType := 1.
Definition ReaderRole : RepoRoleType := 2.
Definition WriterRole : RepoRoleType := 3.

Record UserInGroup : Type := {
  UserId : Z;
  UsergroupId : Z
}.

Record UserGroupInGroup : Type := {
  ParentUsergroupId : Z;
  ChildUsergroupId : Z
}.

Record UsergroupRelationships : Type := {
  UserInGroups : list UserInGroup;
  UserGroupInGroups : list UserGroupInGroup
}.

Record RepogroupRel : Type := {
  RepogroupId : Z;
  RepoId : Z
}.

Definition UserOrGroupRel : Type := Z.
Definition UserUGR : UserOrGroupRel := 1.
Definition UsergroupUGR : UserOrGroupRel := 2.

Definition RepoOrGroupRel : Type := Z.
Definition RepoUGR : RepoOrGroupRel := 1.
Definition RepogroupUGR : RepoOrGroupRel := 2.

Record AssignedRole : Type := {
  UserOrGroup : UserOrGroupRel;
  UserOrGroupID : Z;
  RepoOrGroup : RepoOrGroupRel;
  RepoOrGroupID : Z;
  RepoRole : RepoRoleType
}.

(** The fields of [RequestDetails] carry the prefix [req]: [UserId] and
    [RepoId] are already fields of [UserInGroup] and [RepogroupRel]. *)
Record RequestDetails : Type := {
  reqUserId : Z;
  reqUsername : string;
  reqUsergroupRelationships : UsergroupRelationships;
  reqRepoId : Z;
  reqRepoName : string;
  reqRepogroupRels : list RepogroupRel;
  reqAssignedRoles : list AssignedRole
}.

(** ** Decoding a role label *)

Definition errOwnerOnRepogroup : error :=
  ErrorString "repogroups cannot have owner roles".

Definition repoRoleStrToEnum (repoRoleStr : string) (isRepogroup : bool)
  : RepoRoleType * option error :=
  if decide (repoRoleStr = "owner") then
    if isRepogroup then (UnknownRole, Some errOwnerOnRepogroup)
    else (OwnerRole, None)
  else if decide (repoRoleStr = "reader") then (ReaderRole, None)
  else if decide (repoRoleStr = "writer") then (WriterRole, None)
  else (UnknownRole, Some (ErrorString ("unable to convert " +:+ repoRoleStr))).

(** ** The store: the tables of db-init.sql that the queries read *)

Record Users_row : Type := {
  Users_id : Z;
  Users_username : string
}.

Record Repos_row : Type := {
  Repos_id : Z;
  Repos_reponame : string
}.

(** A row of [repo_roles_enum] or of [repogroup_roles_enum]. *)
Record roles_enum_row : Type := {
  enum_id : Z;
  enum_rolename : string
}.

Record UserGroup_membership_users_row : Type := {
  ugmu_id : Z;
  ugmu_usergroup_id : Z;
  ugmu_user_id : Z
}.

Record UserGroup_membership_usergroups_row : Type := {
  ugmg_id : Z;
  ugmg_usergroup_id : Z;
  ugmg_child_usergroup_id : Z
}.

Record RepoGroup_membership_row : Type := {
  rgm_id : Z;
  rgm_repogroup_id : Z;
  rgm_repo_id : Z
}.

Record Repo_Roles_membership_Users_row : Type := {
  rru_id : Z;
  rru_repo_id : Z;
  rru_user_id : Z;
  rru_repo_role : Z
}.

Record Repo_Roles_membership_UserGroups_row : Type := {
  rrg_id : Z;
  rrg_repo_id : Z;
  rrg_usergroup_id : Z;
  rrg_repo_role : Z
}.

Record RepoGroup_Roles_membership_Users_row : Type := {
  gru_id : Z;
  gru_repogroup_id : Z;
  gru_user_id : Z;
  gru_repogroup_role : Z
}.

Record RepoGroup_Roles_membership_Usergroup_row : Type := {
  grg_id : Z;
  grg_repogroup_id : Z;
  grg_usergroup_id : Z;
  grg_repogroup_role : Z
}.

Record Database : Type := {
  Users : list Users_row;
  Repos : list Repos_row;
  UserGroup_membership_users : list UserGroup_membership_users_row;
  UserGroup_membership_usergroups : list UserGroup_membership_usergroups_row;
  RepoGroup_membership : list RepoGroup_membership_row;
  repo_roles_enum : list roles_enum_row;
  repogroup_roles_enum : list roles_enum_row;
  Repo_Roles_membership_Users : list Repo_Roles_membership_Users_row;
  Repo_Roles_membership_UserGroups : list Repo_Roles_membership_UserGroups_row;
  RepoGroup_Roles_membership_Users : list RepoGroup_Roles_membership_Users_row;
  RepoGroup_Roles_membership_Usergroup : list RepoGroup_Roles_membership_Usergroup_row
}.

(** ** The statements issued against the store *)

Inductive Stmt : Type :=
| BeginTx
| SelectUser
| SelectUsergroups
| SelectRepo
| SelectRepogroups
| SelectUserRepoRoles
| SelectUsergroupRepoRoles
| SelectUserRepogroupRoles
| SelectUsergroupRepogroupRoles
| Commit
| Rollback.

#[global] Instance Stmt_eq_dec : EqDecision Stmt.
Proof. solve_decision. Defined.

(** [DBInstance]: the open database and, as an input of the model, the
    statements on which the driver reports a failure of its own. *)
Record DBInstance : Type := {
  sqliteDb : Database;
  driverFault : Stmt → option error
}.

(** [*sql.Tx]: one consistent snapshot of the store. *)
Record Tx : Type := {
  snapshot : Database;
  fault : Stmt → option error
}.

(** Computations that issue statements: the log of the statements issued
    so far is passed along. *)
Definition Traced (A : Type) : Type := list Stmt → A * list Stmt.

Definition retT {A : Type} (a : A) : Traced A := λ log, (a, log).

Definition bindT {A B : Type} (m : Traced A) (k : A → Traced B) : Traced B :=
  λ log, let (a, log') := m log in k a log'.

Definition exec (st : Stmt) : Traced unit := λ log, (tt, log ++ [st]).

Notation "'let!' x := m 'in' k" := (bindT m (λ x, k))
  (at level 10, x name, m at level 100, k at level 200, only parsing).
Notation "'run!' m 'in' k" := (bindT m (λ _, k))
  (at level 10, m at level 100, k at level 200, only parsing).

(** ** The queries, as relational expressions over the tables *)

(** [SELECT id, username FROM Users WHERE id = $userid] *)
Definition selectUser (db : Database) (userid : Z) : list (Z * string) :=
  (λ u, (Users_id u, Users_username u)) <$>
    filter (λ u, Users_id u = userid) (Users db).

(** [SELECT id, reponame FROM Repos WHERE reponame = $reponame] *)
Definition selectRepo (db : Database) (reponame : string) : list (Z * string) :=
  (λ r, (Repos_id r, Repos_reponame r)) <$>
    filter (λ r, Repos_reponame r = reponame) (Repos db).

(** [SELECT repogroup_id FROM RepoGroup_membership WHERE repo_id = $repoid] *)
Definition selectRepogroups (db : Database) (repoid : Z) : list Z :=
  rgm_repogroup_id <$>
    filter (λ m, rgm_repo_id m = repoid) (RepoGroup_membership db).

(** The recursive query [ugs (usergroup_id, child_usergroup_id)]. A row
    of [ugs] has a NULL child when it comes from the initial select. *)
Definition ugsRow : Type := Z * option Z.

(** [SELECT usergroup_id, NULL FROM UserGroup_membership_users
     WHERE user_id = $userid] *)
Definition ugsInitial (db : Database) (userid : Z) : list ugsRow :=
  (λ m, (ugmu_usergroup_id m, None)) <$>
    filter (λ m, ugmu_user_id m = userid) (UserGroup_membership_users db).

(** The recursive select, run with [ugs] holding the single row [r]:
    [SELECT m.usergroup_id, m.child_usergroup_id
     FROM UserGroup_membership_usergroups m, ugs
     WHERE m.usergroup_id = ugs.usergroup_id
        OR m.usergroup_id = ugs.child_usergroup_id].
    A comparison with a NULL child is not true. *)
Definition ugsRecursive (db : Database) (r : ugsRow) : list ugsRow :=
  (λ m, (ugmg_usergroup_id m, Some (ugmg_child_usergroup_id m))) <$>
    filter (λ m, ugmg_usergroup_id m = r.1 ∨ Some (ugmg_usergroup_id m) = r.2)
      (UserGroup_membership_usergroups db).

(** [UNION]: a row is added to the queue only if no identical row was
    added before. The rows added so far are those already extracted
    ([done]) and those still queued. *)
Definition enqueue (done queue : list ugsRow) (r : ugsRow) : list ugsRow :=
  if decide (r ∈ done ++ queue) then queue else queue ++ [r].

(** Every row the recursive select can produce. *)
Definition ugsEdgeRows (db : Database) : list ugsRow :=
  (λ m, (ugmg_usergroup_id m, Some (ugmg_child_usergroup_id m))) <$>
    UserGroup_membership_usergroups db.

(** The rows of [ugsEdgeRows] not added yet, and the measure that
    decreases at every extraction from the queue. *)
Definition unseen (db : Database) (seen : list ugsRow) : nat :=
  length (filter (λ x, x ∉ seen) (remove_dups (ugsEdgeRows db))).

Definition ugsWeight (db : Database) (done queue : list ugsRow) : nat :=
  (2 * unseen db (done ++ queue) + length queue)%nat.

Lemma ugsRecursive_edge db r x : x ∈ ugsRecursive db r → x ∈ ugsEdgeRows db.
Proof.
  unfold ugsRecursive, ugsEdgeRows. rewrite !list_elem_of_fmap.
  intros (m & -> & Hm). exists m. split; [done|].
  by apply list_elem_of_filter in Hm as [_ ?].
Qed.

Lemma unseen_app_le db seen x : (unseen db (seen ++ [x]) ≤ unseen db seen)%nat.
Proof.
  unfold unseen. generalize (remove_dups (ugsEdgeRows db)) as l.
  induction l as [|y l IH]; simpl; [lia|].
  rewrite !filter_cons.
  destruct (decide (y ∉ seen ++ [x])) as [H1|H1];
    destruct (decide (y ∉ seen)) as [H2|H2]; simpl; try lia.
  exfalso. apply H2. intros ?. apply H1, elem_of_app. by left.
Qed.

Lemma unseen_app_new db seen x :
  x ∈ ugsEdgeRows db → x ∉ seen → (S (unseen db (seen ++ [x])) ≤ unseen db seen)%nat.
Proof.
  unfold unseen. intros Hin Hns.
  assert (Hin' : x ∈ remove_dups (ugsEdgeRows db)) by (by apply elem_of_remove_dups).
  revert Hin'. generalize (remove_dups (ugsEdgeRows db)) as l.
  induction l as [|y l IH]; simpl; intros Hin'.
  - by apply elem_of_nil in Hin'.
  - rewrite !filter_cons.
    apply elem_of_cons in Hin' as [->|Hin'].
    + destruct (decide (y ∉ seen ++ [y])) as [H1|H1];
        [exfalso; apply H1, elem_of_app; right; apply list_elem_of_singleton; done|].
      destruct (decide (y ∉ seen)) as [H2|H2]; [|done]. simpl.
      apply le_n_S. clear.
      induction l as [|z l IH]; simpl; [lia|]. rewrite !filter_cons.
      destruct (decide (z ∉ seen ++ [y])) as [H1|H1];
        destruct (decide (z ∉ seen)) as [H2|H2]; simpl; try lia.
      exfalso. apply H2. intros ?. apply H1, elem_of_app. by left.
    + specialize (IH Hin').
      destruct (decide (y ∉ seen ++ [x])) as [H1|H1];
        destruct (decide (y ∉ seen)) as [H2|H2]; simpl; try lia.
      exfalso. apply H2. intros ?. apply H1, elem_of_app. by left.
Qed.

Lemma enqueue_weight db done queue rows :
  (∀ x, x ∈ rows → x ∈ ugsEdgeRows db) →
  (ugsWeight db done (foldl (enqueue done) queue rows) ≤ ugsWeight db done queue)%nat.
Proof.
  revert queue. induction rows as [|x rows IH]; intros queue Hin; simpl; [done|].
  etrans; [apply IH; intros; apply Hin; by apply elem_of_cons; right|].
  unfold enqueue. destruct (decide (x ∈ done ++ queue)) as [|Hn]; [done|].
  unfold ugsWeight. rewrite length_app. simpl.
  pose proof (unseen_app_new db (done ++ queue) x) as Hu.
  rewrite <- (assoc_L (++)) in Hu.
  specialize (Hu ltac:(apply Hin; by apply elem_of_cons; left) Hn). lia.
Qed.

(** The evaluation of [WITH RECURSIVE ... UNION ...]: extract one row from
    the queue (first in, first out), add it to the result, run the
    recursive select on that single row and queue the rows not seen
    before; stop when the queue is empty. *)
Equations? ugsLoop (db : Database) (done queue : list ugsRow) : list ugsRow
  by wf (ugsWeight db done queue) lt :=
ugsLoop db done [] := done;
ugsLoop db done (r :: q) :=
  ugsLoop db (done ++ [r]) (foldl (enqueue (done ++ [r])) q (ugsRecursive db r)).
Proof.
  eapply Nat.le_lt_trans; [apply enqueue_weight; intros; by eapply ugsRecursive_edge|].
  unfold ugsWeight. rewrite <- (assoc_L (++)). simpl. lia.
Qed.

(** [SELECT ugs.usergroup_id, ugs.child_usergroup_id FROM ugs] *)
Definition selectUsergroups (db : Database) (userid : Z) : list ugsRow :=
  ugsLoop db [] (foldl (enqueue []) [] (ugsInitial db userid)).

(** [SELECT repo_roles_enum.rolename FROM Repo_Roles_membership_Users
     INNER JOIN repo_roles_enum ON repo_roles_enum.id = repo_role
     WHERE repo_id = $repoid AND user_id = $userid] *)
Definition selectUserRepoRoles (db : Database) (repoid userid : Z) : list string :=
  m ← filter (λ m, rru_repo_id m = repoid ∧ rru_user_id m = userid)
        (Repo_Roles_membership_Users db);
  e ← filter (λ e, enum_id e = rru_repo_role m) (repo_roles_enum db);
  [enum_rolename e].

(** [SELECT usergroup_id, rolename FROM Repo_Roles_membership_UserGroups
     INNER JOIN repo_roles_enum ON repo_roles_enum.id = repo_role
     WHERE repo_id = $repoid AND usergroup_id IN ( ... )] *)
Definition selectUsergroupRepoRoles (db : Database) (repoid : Z)
    (usergroupids : list Z) : list (Z * string) :=
  m ← filter (λ m, rrg_repo_id m = repoid ∧ rrg_usergroup_id m ∈ usergroupids)
        (Repo_Roles_membership_UserGroups db);
  e ← filter (λ e, enum_id e = rrg_repo_role m) (repo_roles_enum db);
  [(rrg_usergroup_id m, enum_rolename e)].

(** [SELECT repogroup_id, rolename FROM RepoGroup_Roles_membership_Users
     INNER JOIN repogroup_roles_enum ON repogroup_role = repogroup_roles_enum.id
     WHERE user_id = $userid AND repogroup_id IN ( ... )] *)
Definition selectUserRepogroupRoles (db : Database) (userid : Z)
    (repogroupids : list Z) : list (Z * string) :=
  m ← filter (λ m, gru_user_id m = userid ∧ gru_repogroup_id m ∈ repogroupids)
        (RepoGroup_Roles_membership_Users db);
  e ← filter (λ e, enum_id e = gru_repogroup_role m) (repogroup_roles_enum db);
  [(gru_repogroup_id m, enum_rolename e)].

(** [SELECT repogroup_id, usergroup_id, rolename
     FROM RepoGroup_Roles_membership_Usergroup
     INNER JOIN repogroup_roles_enum ON repogroup_role = repogroup_roles_enum.id
     WHERE usergroup_id IN ( ... ) AND repogroup_id IN ( ... )] *)
Definition selectUsergroupRepogroupRoles (db : Database)
    (usergroupids repogroupids : list Z) : list (Z * Z * string) :=
  m ← filter (λ m, grg_usergroup_id m ∈ usergroupids ∧ grg_repogroup_id m ∈ repogroupids)
        (RepoGroup_Roles_membership_Usergroup db);
  e ← filter (λ e, enum_id e = grg_repogroup_role m) (repogroup_roles_enum db);
  [(grg_repogroup_id m, grg_usergroup_id m, enum_rolename e)].

(** ** The Go functions *)

(** [checkUserInDb]: the username of [userId]. [QueryRow] defers every
    failure to [Scan], which reports [sql.ErrNoRows] when no row matches. *)
Definition checkUserInDb (userId : Z) (sqlTx : Tx) : Traced (error + string) :=
  run! exec SelectUser in
  retT (match fault sqlTx SelectUser with
        | Some err => inl (Errorf "error querying for user from DB" err)
        | None =>
            match selectUser (snapshot sqlTx) userId with
            | [] => inl (Errorf "error querying for user from DB" ErrNoRows)
            | (_, userName) :: _ => inr userName
            end
        end).

(** [checkRepoInDb]: the id of the repo called [reponame]. *)
Definition checkRepoInDb (reponame : string) (sqlTx : Tx) : Traced (error + Z) :=
  run! exec SelectRepo in
  retT (match fault sqlTx SelectRepo with
        | Some err => inl (Errorf "error querying for repo from DB" err)
        | None =>
            match selectRepo (snapshot sqlTx) reponame with
            | [] => inl (Errorf "error querying for repo from DB" ErrNoRows)
            | (repoId, _) :: _ => inr repoId
            end
        end).

(** [getRepogroupRels]: the repogroups the repo is in. *)
Definition getRepogroupRels (repoId : Z) (sqlTx : Tx)
  : Traced (error + list RepogroupRel) :=
  run! exec SelectRepogroups in
  retT (match fault sqlTx SelectRepogroups with
        | Some err => inl (Errorf "error when querying for repogroup membership" err)
        | None =>
            inr ((λ repogroupId, {| RepogroupId := repogroupId; RepoId := repoId |}) <$>
                   selectRepogroups (snapshot sqlTx) repoId)
        end).

(** The loop over the rows of the recursive query: a row with a child is
    a nested usergroup, a row with a NULL child is a usergroup the user is
    a member of. *)
Fixpoint scanUsergroups (userId : Z) (sqlRows : list ugsRow)
    (userInGroups : list UserInGroup) (usergroupInGroups : list UserGroupInGroup)
  : UsergroupRelationships :=
  match sqlRows with
  | [] => {| UserInGroups := userInGroups; UserGroupInGroups := usergroupInGroups |}
  | (usergroupId, childUsergroupId) :: sqlRows' =>
      match childUsergroupId with
      | Some childUgIdInt =>
          let usergroupInGroup :=
            {| ParentUsergroupId := usergroupId; ChildUsergroupId := childUgIdInt |} in
          scanUsergroups userId sqlRows' userInGroups (usergroupInGroups ++ [usergroupInGroup])
      | None =>
          let userInGroup := {| UserId := userId; UsergroupId := usergroupId |} in
          scanUsergroups userId sqlRows' (userInGroups ++ [userInGroup]) usergroupInGroups
      end
  end.

(** [getUsergroupsRecursive]: the usergroups the user is in and the
    nested usergroups below them. *)
Definition getUsergroupsRecursive (userId : Z) (sqlTx : Tx)
  : Traced (error + UsergroupRelationships) :=
  run! exec SelectUsergroups in
  retT (match fault sqlTx SelectUsergroups with
        | Some err => inl (Errorf "error when querying recursively for usergroups" err)
        | None => inr (scanUsergroups userId (selectUsergroups (snapshot sqlTx) userId) [] [])
        end).

(** The loop over the rows of one role query: decode the label, stop at
    the first label that does not decode, append the assignment
    otherwise. *)
Fixpoint scanRoles {R : Type} (rolename : R → string) (isRepogroup : bool)
    (assign : R → RepoRoleType → AssignedRole) (sqlRows : list R)
    (assignedRoles : list AssignedRole) : error + list AssignedRole :=
  match sqlRows with
  | [] => inr assignedRoles
  | row :: sqlRows' =>
      match repoRoleStrToEnum (rolename row) isRepogroup with
      | (_, Some err) => inl (Errorf "error when mapping db role to enum" err)
      | (repoRole, None) =>
          scanRoles rolename isRepogroup assign sqlRows' (assignedRoles ++ [assign row repoRole])
      end
  end.

(** [usergroupIds]: the usergroup ids of the closure, as the keys of a
    [map[int]bool]. *)
Definition usergroupIdsOf (usergroupRels : UsergroupRelationships) : gmap Z bool :=
  let usergroupIds :=
    foldl (λ ids userInGroups, <[UsergroupId userInGroups := true]> ids)
      ∅ (UserInGroups usergroupRels) in
  foldl (λ ids userGroupInGroup, <[ChildUsergroupId userGroupInGroup := true]> ids)
    usergroupIds (UserGroupInGroups usergroupRels).

(** [repogroupIds]: the repogroup ids of the repo, as the keys of a
    [map[int]bool]. *)
Definition repogroupIdsOf (repogroupRels : list RepogroupRel) : gmap Z bool :=
  foldl (λ ids repogroupRel, <[RepogroupId repogroupRel := true]> ids) ∅ repogroupRels.

(** The values bound to the [?] of an [IN ( ... )] list: one per key of
    the map, in the order the map is ranged over (which Go leaves
    unspecified). *)
Definition bindParams (ids : gmap Z bool) : list Z := (map_to_list ids).*1.

(** The [?, ?, ...] text of the list. *)
Definition bindList (ids : gmap Z bool) : list string := (λ _, "?") <$> map_to_list ids.

(** [getAssignedRoles]: the roles assigned to the user or to one of the
    usergroups, on the repo or on one of its repogroups. *)
Definition getAssignedRoles (userId repoId : Z) (usergroupRels : UsergroupRelationships)
    (repogroupRels : list RepogroupRel) (sqlTx : Tx) : Traced (error + list AssignedRole) :=
  let assignedRoles := [] in
  (* how the user is mapped to repo roles *)
  run! exec SelectUserRepoRoles in
  match fault sqlTx SelectUserRepoRoles with
  | Some err => retT (inl (Errorf "error getting how user is mapped to repo roles" err))
  | None =>
  match scanRoles (λ repoRoleStr, repoRoleStr) false
          (λ _ repoRole, {| UserOrGroup := UserUGR; UserOrGroupID := userId;
                            RepoOrGroup := RepoUGR; RepoOrGroupID := repoId;
                            RepoRole := repoRole |})
          (selectUserRepoRoles (snapshot sqlTx) repoId userId) assignedRoles with
  | inl err => retT (inl err)
  | inr assignedRoles =>
  (* the usergroups mapped to repo roles *)
  let usergroupIds := usergroupIdsOf usergroupRels in
  run! exec SelectUsergroupRepoRoles in
  match fault sqlTx SelectUsergroupRepoRoles with
  | Some err =>
      retT (inl (Errorf "error when querying for usergroup to repo role mappings" err))
  | None =>
  match scanRoles snd false
          (λ row repoRole, {| UserOrGroup := UsergroupUGR; UserOrGroupID := row.1;
                              RepoOrGroup := RepoUGR; RepoOrGroupID := repoId;
                              RepoRole := repoRole |})
          (selectUsergroupRepoRoles (snapshot sqlTx) repoId (bindParams usergroupIds))
          assignedRoles with
  | inl err => retT (inl err)
  | inr assignedRoles =>
  (* the user mapped to repogroup roles *)
  let repogroupIds := repogroupIdsOf repogroupRels in
  run! exec SelectUserRepogroupRoles in
  match fault sqlTx SelectUserRepogroupRoles with
  | Some err =>
      retT (inl (Errorf "error when querying for user to repogroup role mappings" err))
  | None =>
  match scanRoles snd true
          (λ row repoRole, {| UserOrGroup := UserUGR; UserOrGroupID := userId;
                              RepoOrGroup := RepogroupUGR; RepoOrGroupID := row.1;
                              RepoRole := repoRole |})
          (selectUserRepogroupRoles (snapshot sqlTx) userId (bindParams repogroupIds))
          assignedRoles with
  | inl err => retT (inl err)
  | inr assignedRoles =>
  (* the usergroups mapped to repogroup roles *)
  run! exec SelectUsergroupRepogroupRoles in
  match fault sqlTx SelectUsergroupRepogroupRoles with
  | Some err =>
      retT (inl (Errorf "error when querying for usergroup to repogroup role mappings" err))
  | None =>
  match scanRoles snd true
          (λ row repoRole, {| UserOrGroup := UsergroupUGR; UserOrGroupID := row.1.2;
                              RepoOrGroup := RepogroupUGR; RepoOrGroupID := row.1.1;
                              RepoRole := repoRole |})
          (selectUsergroupRepogroupRoles (snapshot sqlTx)
             (bindParams usergroupIds) (bindParams repogroupIds))
          assignedRoles with
  | inl err => retT (inl err)
  | inr assignedRoles => retT (inr assignedRoles)
  end end end end end end end end.

(** [GatherRequestDetails]: everything the decision needs, read in one
    transaction. *)
Definition GatherRequestDetails (userId : Z) (reponame : string) (dbInstance : DBInstance)
  : Traced (error + RequestDetails) :=
  run! exec BeginTx in
  match driverFault dbInstance BeginTx with
  | Some err => retT (inl (Errorf "error when making Tx" err))
  | None =>
  let sqlTx := {| snapshot := sqliteDb dbInstance; fault := driverFault dbInstance |} in
  let! r := checkUserInDb userId sqlTx in
  match r with
  | inl err => run! exec Rollback in retT (inl (Errorf "error from checkUserInDb" err))
  | inr username =>
  let! r := getUsergroupsRecursive userId sqlTx in
  match r with
  | inl err => run! exec Rollback in retT (inl (Errorf "error from getUsergroupsRecursive" err))
  | inr usergroupRels =>
  let! r := checkRepoInDb reponame sqlTx in
  match r with
  | inl err => run! exec Rollback in retT (inl (Errorf "error from checkRepoInDb" err))
  | inr repoId =>
  let! r := getRepogroupRels repoId sqlTx in
  match r with
  | inl err => run! exec Rollback in retT (inl (Errorf "error from getRepogroupRels" err))
  | inr repogroupRels =>
  let! r := getAssignedRoles userId repoId usergroupRels repogroupRels sqlTx in
  match r with
  | inl err => run! exec Rollback in retT (inl (Errorf "error from getAssignedRoles" err))
  | inr assignedRoles =>
  run! exec Commit in
  match driverFault dbInstance Commit with
  | Some err => retT (inl (Errorf "error when cleaning up sqlite Tx" err))
  | None =>
      retT (inr {| reqUserId := userId;
                   reqUsername := username;
                   reqUsergroupRelationships := usergroupRels;
                   reqRepoId := repoId;
                   reqRepoName := reponame;
                   reqRepogroupRels := repogroupRels;
                   reqAssignedRoles := assignedRoles |})
  end end end end end end end.

(** ** The example data of db-init.sql *)

Definition exampleDb : Database := {|
  Users := [ {| Users_id := 1; Users_username := "Olivia" |};
             {| Users_id := 2; Users_username := "Noah" |};
             {| Users_id := 3; Users_username := "Emma" |};
             {| Users_id := 4; Users_username := "Liam" |};
             {| Users_id := 5; Users_username := "Tony" |} ];
  Repos := [ {| Repos_id := 1; Repos_reponame := "Alpha" |};
             {| Repos_id := 2; Repos_reponame := "Bravo" |};
             {| Repos_id := 3; Repos_reponame := "Charlie" |} ];
  UserGroup_membership_users :=
    [ {| ugmu_id := 1; ugmu_usergroup_id := 1; ugmu_user_id := 4 |};
      {| ugmu_id := 2; ugmu_usergroup_id := 1; ugmu_user_id := 3 |};
      {| ugmu_id := 3; ugmu_usergroup_id := 3; ugmu_user_id := 5 |} ];
  UserGroup_membership_usergroups :=
    [ {| ugmg_id := 1; ugmg_usergroup_id := 1; ugmg_child_usergroup_id := 2 |};
      {| ugmg_id := 2; ugmg_usergroup_id := 2; ugmg_child_usergroup_id := 3 |} ];
  RepoGroup_membership :=
    [ {| rgm_id := 1; rgm_repogroup_id := 1; rgm_repo_id := 2 |};
      {| rgm_id := 2; rgm_repogroup_id := 1; rgm_repo_id := 3 |} ];
  repo_roles_enum :=
    [ {| enum_id := 1; enum_rolename := "reader" |};
      {| enum_id := 2; enum_rolename := "writer" |};
      {| enum_id := 3; enum_rolename := "owner" |} ];
  repogroup_roles_enum :=
    [ {| enum_id := 1; enum_rolename := "reader" |};
      {| enum_id := 2; enum_rolename := "writer" |} ];
  Repo_Roles_membership_Users :=
    [ {| rru_id := 1; rru_repo_id := 3; rru_user_id := 1; rru_repo_role := 3 |};
      {| rru_id := 2; rru_repo_id := 3; rru_user_id := 2; rru_repo_role := 1 |} ];
  Repo_Roles_membership_UserGroups := [];
  RepoGroup_Roles_membership_Users := [];
  RepoGroup_Roles_membership_Usergroup :=
    [ {| grg_id := 1; grg_repogroup_id := 1; grg_usergroup_id := 1;
         grg_repogroup_role := 2 |} ]
|}.

Definition exampleInstance : DBInstance :=
  {| sqliteDb := exampleDb; driverFault := λ _, None |}.

End dblogic.

(** * The biscuit library, as far as [authz] drives it

    The library is not part of the repository. Its model keeps what the
    authorizer text of [CheckAuthz] needs: facts over strings, the
    checks a token carries, the signature of the authority block, and an
    evaluation of the rules and of the policy of that text. Limits of
    the evaluator on run time and on the number of facts are outside the
    model. *)

Module biscuit.

(** The facts that occur in a token issued by [IssueToken] and in the
    authorizer text of [CheckAuthz]; every term is a string, a set of
    strings or a date. *)
Inductive Fact : Type :=
| fact_user (id : string)
| fact_repo_role_actions (role : string) (permissions : list string)
| fact_operation (action repo : string)
| fact_time (datetime : string)
| fact_usergroup (group member : string)
| fact_repogroup (group member : string)
| fact_role (userOrGroup repoOrGroup role : string).

#[global] Instance Fact_eq_dec : EqDecision Fact.
Proof. solve_decision. Defined.

(** A check of an attenuation block holds or fails on the facts it sees. *)
Definition Check : Type := list Fact → bool.

(** An ed25519 key pair, named by the seed it was generated from. *)
Definition Key : Type := Z.

(** A token: the key that signed its authority block, the facts of that
    block, and the checks of the blocks appended to it. *)
Record Biscuit : Type := {
  rootKey : Key;
  authority : list Fact;
  checks : list Check
}.

(** An authorizer: the facts it evaluates over and the checks it must
    satisfy. *)
Record Authorizer : Type := {
  world : list Fact;
  blockChecks : list Check
}.

(** The errors of the library (the texts are the library's own). *)
Definition ErrInvalidSignature : error := ErrorString "biscuit: invalid signature".
Definition ErrFailedChecks : error := ErrorString "biscuit: verification failed".
Definition ErrNoMatchingPolicy : error :=
  ErrorString "biscuit: denied by no matching policies".

(** [token.Authorizer(root)]: the signature of the token is verified
    against [root]. *)
Definition newAuthorizer (token : Biscuit) (root : Key) : error + Authorizer :=
  if decide (rootKey token = root)
  then inr {| world := authority token; blockChecks := checks token |}
  else inl ErrInvalidSignature.

(** [authorizer.AddAuthorizer(contents)]: the facts of the parsed text
    join those of the authority block. *)
Definition AddAuthorizer (authorizer : Authorizer) (facts : list Fact) : Authorizer :=
  {| world := world authorizer ++ facts; blockChecks := blockChecks authorizer |}.

End biscuit.

(** * Package authz *)

Module authz.
Import biscuit.

Definition Action : Type := Z.
Definition Membership : Action := 0.
Definition Read : Action := 1.
Definition Write : Action := 2.

Definition membershipStr : string := "membership".
Definition writeStr : string := "write".
Definition readStr : string := "read".
Definition ownerRoleStr : string := "owner".
Definition writerRoleStr : string := "writer".
Definition readerRoleStr : string := "reader".

Definition roleNS : string := "role".
Definition actionNS : string := "action".
Definition userNS : string := "userid".
Definition usergroupNS : string := "usergroupid".
Definition repoNS : string := "repo".
Definition repogroupNS : string := "repogroupid".

(** ** Issuing tokens *)

Record TokenIssuer : Type := {
  privateRoot : Key;
  PublicRoot : Key
}.


(** [IssueToken]: a token whose authority block is the one fact
    [user("userid:<userId>")]. *)
Definition IssueToken (tokenIssuer : TokenIssuer) (userId : Z) : error + Biscuit :=
  inr {| rootKey := privateRoot tokenIssuer;
         authority := [fact_user ("userid:" +:+ pretty userId)];
         checks := [] |}.


(** ** Namespaces *)

Definition namespaceAuthz (symbol namespace : string) : string :=
  namespace +:+ ":" +:+ symbol.

Definition namespaceRole (symbol : string) : string := namespaceAuthz symbol roleNS.

Definition namespaceUser (symbol : Z) : string := namespaceAuthz (pretty symbol) userNS.

Definition namespaceRepo (symbol : Z) : string := namespaceAuthz (pretty symbol) repoNS.

Definition namespaceAction (symbol : string) : string := namespaceAuthz symbol actionNS.

Definition namespaceUG (symbol : Z) : string := namespaceAuthz (pretty symbol) usergroupNS.

Definition namespaceRG (symbol : Z) : string := namespaceAuthz (pretty symbol) repogroupNS.

Definition quote : string := String (ascii_of_nat 34) EmptyString.

(** [buildRoleActions]: the actions, namespaced, quoted and joined. *)
Definition buildRoleActions (actions : list string) : string :=
  let datalogedActions :=
    (λ action, quote +:+ namespaceAuthz action actionNS +:+ quote) <$> actions in
  String.concat ", " datalogedActions.

(** ** The data handed to the template *)

Record repoRoleActions : Type := {
  RoleName : string;
  RoleAllowedActions : list string
}.

Record userInGroup : Type := {
  UsergroupId : Z;
  UserId : Z
}.

Record ugInUg : Type := {
  ParentUsergroupId : Z;
  ChildUsergroupId : Z
}.

Record userGroupRels : Type := {
  UserInGroups : list userInGroup;
  UgsInUgs : list ugInUg
}.

Record assignedRole : Type := {
  Role : string;
  UserNamespaced : string;
  RepoNamespaced : string
}.

Record authzDetails : Type := {
  RepoRoleActions : list repoRoleActions;
  UserID : Z;
  UserGroupRels : userGroupRels;
  ActionStr : string;
  RepoID : Z;
  RepogroupRels : list dblogic.RepogroupRel;
  AssignedRoles : list assignedRole;
  DateTime : string
}.

(** ** The authorizer text [authzTemplStr]

    The template produces facts, which depend on the data, followed by
    fixed rules and one policy. The text is parsed back by the library;
    the facts are kept here as the values the text denotes, in the order
    of the template. *)

Definition authzFacts (d : authzDetails) : list Fact :=
  (* repo_role_actions("{{NamespaceRole .RoleName}}",
                       [{{BuildRoleActions .RoleAllowedActions}}]); *)
  ((λ rra, fact_repo_role_actions (namespaceRole (RoleName rra))
             ((λ action, namespaceAuthz action actionNS) <$> RoleAllowedActions rra))
     <$> RepoRoleActions d) ++
  (* operation("{{NamespaceAction .ActionStr}}", "{{NamespaceRepo .RepoID}}");
     time({{.DateTime}}); *)
  [fact_operation (namespaceAction (ActionStr d)) (namespaceRepo (RepoID d));
   fact_time (DateTime d)] ++
  (* usergroup("{{NamespaceUG .UsergroupId}}", "{{NamespaceUser .UserId}}"); *)
  ((λ uig, fact_usergroup (namespaceUG (UsergroupId uig)) (namespaceUser (UserId uig)))
     <$> UserInGroups (UserGroupRels d)) ++
  (* usergroup("{{NamespaceUG .ParentUsergroupId}}",
               "{{NamespaceUG .ChildUsergroupId}}"); *)
  ((λ ug, fact_usergroup (namespaceUG (ParentUsergroupId ug))
            (namespaceUG (ChildUsergroupId ug)))
     <$> UgsInUgs (UserGroupRels d)) ++
  (* repogroup("{{NamespaceRG .RepogroupId}}", "{{NamespaceRepo .RepoId}}"); *)
  ((λ rel, fact_repogroup (namespaceRG (dblogic.RepogroupId rel))
             (namespaceRepo (dblogic.RepoId rel)))
     <$> RepogroupRels d) ++
  (* role("{{.UserNamespaced}}", "{{.RepoNamespaced}}", "{{.Role}}"); *)
  ((λ ar, fact_role (UserNamespaced ar) (RepoNamespaced ar) (Role ar))
     <$> AssignedRoles d).

(** *** The rules, read as Horn clauses over a set of facts [W] *)

Section rules.
Variable W : list Fact.

(** [repo($repoid) <- operation($action, $repoid);] *)
Definition repo (repoid : string) : Prop :=
  ∃ action, fact_operation action repoid ∈ W.

(** [user_authority($member, $member) <- user($member);]
    [user_authority($member, $group) <-
       usergroup($group, $member), $member.starts_with("userid:");]
    [user_authority($member, $subgroup) <-
       usergroup($group, $subgroup), $subgroup.starts_with("usergroupid:"),
       user_authority($member, $group);] *)
Inductive user_authority : string → string → Prop :=
| user_authority_self member :
    fact_user member ∈ W → user_authority member member
| user_authority_member group member :
    fact_usergroup group member ∈ W →
    String.prefix "userid:" member = true →
    user_authority member group
| user_authority_subgroup member group subgroup :
    fact_usergroup group subgroup ∈ W →
    String.prefix "usergroupid:" subgroup = true →
    user_authority member group →
    user_authority member subgroup.

(** [repo_authority($member, $member) <- repo($member);]
    [repo_authority($member, $group) <- repogroup($group, $member);] *)
Inductive repo_authority : string → string → Prop :=
| repo_authority_self member :
    repo member → repo_authority member member
| repo_authority_group member group :
    fact_repogroup group member ∈ W → repo_authority member group.



End rules.

(** *** The evaluation of the rules: the derived facts, bottom up *)

Definition userFacts (W : list Fact) : list string :=
  omap (λ f, match f with fact_user id => Some id | _ => None end) W.

Definition operationFacts (W : list Fact) : list (string * string) :=
  omap (λ f, match f with fact_operation a r => Some (a, r) | _ => None end) W.

Definition repoRoleActionsFacts (W : list Fact) : list (string * list string) :=
  omap (λ f, match f with fact_repo_role_actions r p => Some (r, p) | _ => None end) W.

Definition usergroupFacts (W : list Fact) : list (string * string) :=
  omap (λ f, match f with fact_usergroup g m => Some (g, m) | _ => None end) W.

Definition repogroupFacts (W : list Fact) : list (string * string) :=
  omap (λ f, match f with fact_repogroup g m => Some (g, m) | _ => None end) W.

Definition roleFacts (W : list Fact) : list (string * string * string) :=
  omap (λ f, match f with fact_role u r ro => Some (u, r, ro) | _ => None end) W.

Definition derive_repo (W : list Fact) : list string := snd <$> operationFacts W.

(** The pairs [(member, group)] of the two rules of [user_authority]
    without a [user_authority] atom in the body. *)
Definition user_authority_base (W : list Fact) : list (string * string) :=
  ((λ member, (member, member)) <$> userFacts W) ++
  omap (λ gm : string * string,
          if String.prefix "userid:" gm.2 then Some (gm.2, gm.1) else None)
       (usergroupFacts W).

(** One application of the third rule to the pairs derived so far. *)
Definition user_authority_step (W : list Fact) (derived : list (string * string))
  : list (string * string) :=
  gs ← usergroupFacts W;
  if String.prefix "usergroupid:" gs.2
  then mg ← derived; if decide (mg.2 = gs.1) then [(mg.1, gs.2)] else []
  else [].

Fixpoint user_authority_iter (W : list Fact) (n : nat)
    (derived : list (string * string)) : list (string * string) :=
  match n with
  | O => derived
  | S n' => user_authority_iter W n' (list_union derived (user_authority_step W derived))
  end.

(** A derivation passes through each usergroup fact at most once, so as
    many rounds as there are usergroup facts reach every pair. *)
Definition derive_user_authority (W : list Fact) : list (string * string) :=
  user_authority_iter W (length (usergroupFacts W)) (user_authority_base W).

Definition derive_repo_authority (W : list Fact) : list (string * string) :=
  ((λ member, (member, member)) <$> derive_repo W) ++
  ((λ gm : string * string, (gm.2, gm.1)) <$> repogroupFacts W).

Definition derive_req_role (W : list Fact) : list (string * string) :=
  ar ← operationFacts W;
  rp ← repoRoleActionsFacts W;
  if decide (ar.1 ∈ rp.2) then [(rp.1, ar.1)] else [].

(** The policy, matched against the facts and the derived facts. *)
Definition allow_policy (W : list Fact) : bool :=
  existsb (λ user,
    existsb (λ ar : string * string,
      existsb (λ ra : string * string,
        bool_decide (ra.2 = ar.1)
        && existsb (λ ua : string * string, bool_decide (ua.1 = user))
             (derive_user_authority W)
        && existsb (λ ra' : string * string, bool_decide (ra'.1 = ar.2))
             (derive_repo_authority W)
        && existsb (λ role : string * string * string, bool_decide (role.2 = ra.1))
             (roleFacts W))
      (derive_req_role W))
    (operationFacts W))
  (userFacts W).

(** [authorizer.Authorize()] for the authorizer text: the checks of the
    token are verified first; then the one policy decides, and no
    matching policy is an error. *)
Definition Authorize (authorizer : Authorizer) : option error :=
  if forallb (λ check : Check, check (world authorizer)) (blockChecks authorizer)
  then if allow_policy (world authorizer) then None else Some ErrNoMatchingPolicy
  else Some ErrFailedChecks.

(** ** CheckAuthz *)

(** [fmt.Errorf("msg: %w", s)] with a string [s] where an error is
    wanted: the operand is printed as a bad verb and nothing is wrapped. *)
Definition ErrorfString (msg s : string) : error :=
  ErrorString (msg +:+ ": %!w(string=" +:+ s +:+ ")").

(** The role to action logic, stored in code: the value of the field
    [RepoRoleActions] of the struct literal below. *)
Definition repoRoleActionsTable : list repoRoleActions :=
  [ {| RoleName := ownerRoleStr;
       RoleAllowedActions := [membershipStr; writeStr; readStr] |};
    {| RoleName := writerRoleStr;
       RoleAllowedActions := [writeStr; readStr] |};
    {| RoleName := readerRoleStr;
       RoleAllowedActions := [readStr] |} ].

(** The struct literal [authzDetailsInst]; [now] is [time.Now()] in
    RFC 3339. *)
Definition authzDetailsLiteral (reqDetails : dblogic.RequestDetails) (now : string)
  : authzDetails :=
  {| RepoRoleActions := repoRoleActionsTable;
     UserID := dblogic.reqUserId reqDetails;
     UserGroupRels := {| UserInGroups := []; UgsInUgs := [] |};
     ActionStr := "";
     RepoID := dblogic.reqRepoId reqDetails;
     RepogroupRels := dblogic.reqRepogroupRels reqDetails;
     AssignedRoles := [];
     DateTime := now |}.

(** Assignments to the fields of [authzDetailsInst]. *)
Definition withActionStr (actionStr : string) (d : authzDetails) : authzDetails :=
  {| RepoRoleActions := RepoRoleActions d; UserID := UserID d;
     UserGroupRels := UserGroupRels d; ActionStr := actionStr; RepoID := RepoID d;
     RepogroupRels := RepogroupRels d; AssignedRoles := AssignedRoles d;
     DateTime := DateTime d |}.

Definition withUserGroupRels (rels : userGroupRels) (d : authzDetails) : authzDetails :=
  {| RepoRoleActions := RepoRoleActions d; UserID := UserID d;
     UserGroupRels := rels; ActionStr := ActionStr d; RepoID := RepoID d;
     RepogroupRels := RepogroupRels d; AssignedRoles := AssignedRoles d;
     DateTime := DateTime d |}.

Definition withAssignedRoles (roles : list assignedRole) (d : authzDetails)
  : authzDetails :=
  {| RepoRoleActions := RepoRoleActions d; UserID := UserID d;
     UserGroupRels := UserGroupRels d; ActionStr := ActionStr d; RepoID := RepoID d;
     RepogroupRels := RepogroupRels d; AssignedRoles := roles;
     DateTime := DateTime d |}.

(** [switch operation]. *)
Definition operationActionStr (operation : Action) : outcome string :=
  if decide (operation = Membership) then Returned membershipStr
  else if decide (operation = Read) then Returned readStr
  else if decide (operation = Write) then Returned writeStr
  else Fatal ("Unknown operation: %!s(authz.Action=" +:+ pretty operation +:+ ")").

(** The two loops that copy the usergroup relationships. *)
Definition copyUserGroupRels (userGroupRelsPtr : dblogic.UsergroupRelationships)
  : userGroupRels :=
  {| UserInGroups :=
       (λ userInGroupDB,
          {| UsergroupId := dblogic.UsergroupId userInGroupDB;
             UserId := dblogic.UserId userInGroupDB |})
         <$> dblogic.UserInGroups userGroupRelsPtr;
     UgsInUgs :=
       (λ ugsInUgsDB,
          {| ParentUsergroupId := dblogic.ParentUsergroupId ugsInUgsDB;
             ChildUsergroupId := dblogic.ChildUsergroupId ugsInUgsDB |})
         <$> dblogic.UserGroupInGroups userGroupRelsPtr |}.

(** The body of the loop over [reqDetails.AssignedRoles]: the three
    switches, each ending the process on a tag it does not know. *)
Definition roleFact (dbAssignRole : dblogic.AssignedRole) : outcome assignedRole :=
  let userOrGroupTag := dblogic.UserOrGroup dbAssignRole in
  let repoOrGroupTag := dblogic.RepoOrGroup dbAssignRole in
  let repoRole := dblogic.RepoRole dbAssignRole in
  match
    (if decide (userOrGroupTag = dblogic.UserUGR)
     then Returned (namespaceUser (dblogic.UserOrGroupID dbAssignRole))
     else if decide (userOrGroupTag = dblogic.UsergroupUGR)
     then Returned (namespaceUG (dblogic.UserOrGroupID dbAssignRole))
     else Fatal ("Failed to match UserOrGroup in role assignment: "
                 +:+ pretty userOrGroupTag))
  with
  | Fatal msg => Fatal msg
  | Returned userOrGroup =>
  match
    (if decide (repoOrGroupTag = dblogic.RepoUGR)
     then Returned (namespaceRepo (dblogic.RepoOrGroupID dbAssignRole))
     else if decide (repoOrGroupTag = dblogic.RepogroupUGR)
     then Returned (namespaceRG (dblogic.RepoOrGroupID dbAssignRole))
     else Fatal ("Failed to match RepoOrGroup in role assignment: "
                 +:+ pretty repoOrGroupTag))
  with
  | Fatal msg => Fatal msg
  | Returned repoOrGroup =>
  match
    (if decide (repoRole = dblogic.OwnerRole) then Returned (namespaceRole ownerRoleStr)
     else if decide (repoRole = dblogic.ReaderRole) then Returned (namespaceRole readerRoleStr)
     else if decide (repoRole = dblogic.WriterRole) then Returned (namespaceRole writerRoleStr)
     else Fatal ("Failed to match RepoRole in role assignment: " +:+ pretty repoRole))
  with
  | Fatal msg => Fatal msg
  | Returned roleName =>
      Returned {| Role := roleName;
                  UserNamespaced := userOrGroup;
                  RepoNamespaced := repoOrGroup |}
  end end end.

Fixpoint roleFacts_loop (dbAssignRoles : list dblogic.AssignedRole)
    (assignedRoles : list assignedRole) : outcome (list assignedRole) :=
  match dbAssignRoles with
  | [] => Returned assignedRoles
  | dbAssignRole :: rest =>
      match roleFact dbAssignRole with
      | Fatal msg => Fatal msg
      | Returned assignedRoleMapping =>
          roleFacts_loop rest (assignedRoles ++ [assignedRoleMapping])
      end
  end.

(** The first half of [CheckAuthz]: the data of the template, or the end
    of the process on an operation or a tag that is not known. *)
Definition authzDetailsFor (reqDetails : dblogic.RequestDetails) (operation : Action)
    (now : string) : outcome authzDetails :=
  let authzDetailsInst := authzDetailsLiteral reqDetails now in
  match operationActionStr operation with
  | Fatal msg => Fatal msg
  | Returned actionStr =>
  let authzDetailsInst := withActionStr actionStr authzDetailsInst in
  let authzDetailsInst :=
    withUserGroupRels (copyUserGroupRels (dblogic.reqUsergroupRelationships reqDetails))
      authzDetailsInst in
  match roleFacts_loop (dblogic.reqAssignedRoles reqDetails) [] with
  | Fatal msg => Fatal msg
  | Returned assignedRoles => Returned (withAssignedRoles assignedRoles authzDetailsInst)
  end end.

(** [CheckAuthz]: whether the user of the token may perform [operation]
    on the repo of [reqDetails]. The template executes without error on
    this data and its text parses, so the two corresponding error
    returns of the Go code are never taken. *)
Definition CheckAuthz (token : Biscuit) (publicRoot : Key)
    (reqDetails : dblogic.RequestDetails) (operation : Action) (now : string)
  : outcome (bool * option error) :=
  match authzDetailsFor reqDetails operation now with
  | Fatal msg => Fatal msg
  | Returned authzDetailsInst =>
  match newAuthorizer token publicRoot with
  | inl err =>
      Returned (false,
        Some (ErrorfString "error when verifying token and creating authorizer" (Error err)))
  | inr authorizer =>
  let authorizer := AddAuthorizer authorizer (authzFacts authzDetailsInst) in
  match Authorize authorizer with
  | Some err => Returned (false, Some (ErrorfString "error in Authorize" (Error err)))
  | None => Returned (true, None)
  end end end.

End authz.

(** * Facts about package dblogic *)

Module dblogic_props.
Import dblogic.

(** ** Vocabulary *)

(** [userId] is a direct member of [g]; [c] is nested under [p]; [g] is
    reachable from one of the usergroups [userId] is a member of. *)
Definition member (db : Database) (userId g : Z) : Prop :=
  ∃ m, m ∈ UserGroup_membership_users db ∧ ugmu_user_id m = userId ∧ ugmu_usergroup_id m = g.

Definition nests (db : Database) (p c : Z) : Prop :=
  ∃ m, m ∈ UserGroup_membership_usergroups db ∧
       ugmg_usergroup_id m = p ∧ ugmg_child_usergroup_id m = c.

Definition reachable (db : Database) (userId g : Z) : Prop :=
  ∃ d, member db userId d ∧ rtc (nests db) d g.

(** The rows the recursive query may hold for [userId]. *)
Definition ugsValid (db : Database) (userId : Z) (r : ugsRow) : Prop :=
  match r.2 with
  | None => member db userId r.1
  | Some c => nests db r.1 c ∧ reachable db userId r.1
  end.

(** The rows added so far: duplicate free, valid, holding the initial
    rows, and closed under the recursive select for extracted rows. *)
Definition ugsInv (db : Database) (userId : Z) (done queue : list ugsRow) : Prop :=
  NoDup (done ++ queue) ∧
  (∀ x, x ∈ done ++ queue → ugsValid db userId x) ∧
  (∀ x, x ∈ ugsInitial db userId → x ∈ done ++ queue) ∧
  (∀ r x, r ∈ done → x ∈ ugsRecursive db r → x ∈ done ++ queue).

Definition directOf (userId : Z) (r : ugsRow) : option UserInGroup :=
  match r.2 with
  | None => Some {| UserId := userId; UsergroupId := r.1 |}
  | Some _ => None
  end.

Definition nestedOf (r : ugsRow) : option UserGroupInGroup :=
  match r.2 with
  | Some c => Some {| ParentUsergroupId := r.1; ChildUsergroupId := c |}
  | None => None
  end.

(** A nesting row added to the store. *)
Definition addNesting (m : UserGroup_membership_usergroups_row) (db : Database) : Database :=
  {| Users := Users db;
     Repos := Repos db;
     UserGroup_membership_users := UserGroup_membership_users db;
     UserGroup_membership_usergroups := UserGroup_membership_usergroups db ++ [m];
     RepoGroup_membership := RepoGroup_membership db;
     repo_roles_enum := repo_roles_enum db;
     repogroup_roles_enum := repogroup_roles_enum db;
     Repo_Roles_membership_Users := Repo_Roles_membership_Users db;
     Repo_Roles_membership_UserGroups := Repo_Roles_membership_UserGroups db;
     RepoGroup_Roles_membership_Users := RepoGroup_Roles_membership_Users db;
     RepoGroup_Roles_membership_Usergroup := RepoGroup_Roles_membership_Usergroup db |}.

Definition decodes (isRepogroup : bool) (label : string) : Prop :=
  (repoRoleStrToEnum label isRepogroup).2 = None.

Definition knownLabel (label : string) : Prop :=
  label = "owner" ∨ label = "reader" ∨ label = "writer".

Definition withNesting (m : UserGroup_membership_usergroups_row) (sqlTx : Tx) : Tx :=
  {| snapshot := addNesting m (snapshot sqlTx); fault := fault sqlTx |}.

(** Two usergroups nested under each other, and a user in the first. *)
Definition cycleDb : Database := {|
  Users := [ {| Users_id := 1; Users_username := "Olivia" |} ];
  Repos := [];
  UserGroup_membership_users :=
    [ {| ugmu_id := 1; ugmu_usergroup_id := 1; ugmu_user_id := 1 |} ];
  UserGroup_membership_usergroups :=
    [ {| ugmg_id := 1; ugmg_usergroup_id := 1; ugmg_child_usergroup_id := 2 |};
      {| ugmg_id := 2; ugmg_usergroup_id := 2; ugmg_child_usergroup_id := 1 |} ];
  RepoGroup_membership := [];
  repo_roles_enum := [];
  repogroup_roles_enum := [];
  Repo_Roles_membership_Users := [];
  Repo_Roles_membership_UserGroups := [];
  RepoGroup_Roles_membership_Users := [];
  RepoGroup_Roles_membership_Usergroup := []
|}.

Definition noFault : Stmt → option error := λ _, None.

(** The example data with an owner role entered for repogroups and
    granted to user 4 on repogroup 1. *)
Definition ownerOnRepogroupDb : Database := {|
  Users := Users exampleDb;
  Repos := Repos exampleDb;
  UserGroup_membership_users := UserGroup_membership_users exampleDb;
  UserGroup_membership_usergroups := UserGroup_membership_usergroups exampleDb;
  RepoGroup_membership := RepoGroup_membership exampleDb;
  repo_roles_enum := repo_roles_enum exampleDb;
  repogroup_roles_enum :=
    repogroup_roles_enum exampleDb ++ [ {| enum_id := 3; enum_rolename := "owner" |} ];
  Repo_Roles_membership_Users := Repo_Roles_membership_Users exampleDb;
  Repo_Roles_membership_UserGroups := Repo_Roles_membership_UserGroups exampleDb;
  RepoGroup_Roles_membership_Users :=
    [ {| gru_id := 1; gru_repogroup_id := 1; gru_user_id := 4; gru_repogroup_role := 3 |} ];
  RepoGroup_Roles_membership_Usergroup := RepoGroup_Roles_membership_Usergroup exampleDb
|}.

(** A principal and a resource of a role assignment. *)
Inductive principal : Type :=
| User (id : Z)
| Usergroup (id : Z).

Inductive resource : Type :=
| Repo (id : Z)
| Repogroup (id : Z).

(** The store grants the role called [label] to the principal on the
    resource: a row of the table of that shape, joined to its enum row. *)
Definition granted (db : Database) (p : principal) (r : resource) (label : string) : Prop :=
  match p, r with
  | User u, Repo rp =>
      ∃ m e, m ∈ Repo_Roles_membership_Users db ∧ rru_user_id m = u ∧ rru_repo_id m = rp ∧
             e ∈ repo_roles_enum db ∧ enum_id e = rru_repo_role m ∧ enum_rolename e = label
  | Usergroup g, Repo rp =>
      ∃ m e, m ∈ Repo_Roles_membership_UserGroups db ∧
             rrg_usergroup_id m = g ∧ rrg_repo_id m = rp ∧
             e ∈ repo_roles_enum db ∧ enum_id e = rrg_repo_role m ∧ enum_rolename e = label
  | User u, Repogroup rg =>
      ∃ m e, m ∈ RepoGroup_Roles_membership_Users db ∧
             gru_user_id m = u ∧ gru_repogroup_id m = rg ∧
             e ∈ repogroup_roles_enum db ∧ enum_id e = gru_repogroup_role m ∧
             enum_rolename e = label
  | Usergroup g, Repogroup rg =>
      ∃ m e, m ∈ RepoGroup_Roles_membership_Usergroup db ∧
             grg_usergroup_id m = g ∧ grg_repogroup_id m = rg ∧
             e ∈ repogroup_roles_enum db ∧ enum_id e = grg_repogroup_role m ∧
             enum_rolename e = label
  end.

(** The repo belongs to the repogroup. *)
Definition inRepogroup (db : Database) (repoId rg : Z) : Prop :=
  ∃ m, m ∈ RepoGroup_membership db ∧ rgm_repo_id m = repoId ∧ rgm_repogroup_id m = rg.

(** A relevant assignment: its principal is the user or a usergroup of
    the closure, its resource the repo or a repogroup of the repo. *)
Definition relevant (db : Database) (userId repoId : Z) (p : principal) (r : resource) : Prop :=
  match p with User u => u = userId | Usergroup g => reachable db userId g end ∧
  match r with Repo rp => rp = repoId | Repogroup rg => inRepogroup db repoId rg end.

Definition isRepogroupOf (r : resource) : bool :=
  match r with Repo _ => false | Repogroup _ => true end.

(** The assignment the aggregator builds for a granted role. *)
Definition assignmentOf (p : principal) (r : resource) (label : string) : AssignedRole :=
  {| UserOrGroup := match p with User _ => UserUGR | Usergroup _ => UsergroupUGR end;
     UserOrGroupID := match p with User id | Usergroup id => id end;
     RepoOrGroup := match r with Repo _ => RepoUGR | Repogroup _ => RepogroupUGR end;
     RepoOrGroupID := match r with Repo id | Repogroup id => id end;
     RepoRole := (repoRoleStrToEnum label (isRepogroupOf r)).1 |}.

(** ** The recursive query *)

Lemma elem_of_ugsInitial db userId r :
  r ∈ ugsInitial db userId ↔ r.2 = None ∧ member db userId r.1.
Proof.
  unfold ugsInitial, member. rewrite list_elem_of_fmap. split.
  - intros (m & -> & Hm). apply list_elem_of_filter in Hm as [? ?]. simpl. eauto.
  - destruct r as [g c]. simpl. intros (-> & m & Hm & Hu & <-).
    exists m. split; [done|]. by apply list_elem_of_filter.
Qed.

Lemma elem_of_ugsRecursive db r x :
  x ∈ ugsRecursive db r ↔
  ∃ c, x.2 = Some c ∧ nests db x.1 c ∧ (x.1 = r.1 ∨ Some x.1 = r.2).
Proof.
  unfold ugsRecursive, nests. rewrite list_elem_of_fmap. split.
  - intros (m & -> & Hm). apply list_elem_of_filter in Hm as [? ?]. simpl. eauto 10.
  - destruct x as [p c']. simpl. intros (c & -> & (m & Hm & <- & <-) & Hor).
    exists m. split; [done|]. by apply list_elem_of_filter.
Qed.

Lemma elem_of_enqueue_foldl done queue rows x :
  x ∈ done ++ foldl (enqueue done) queue rows ↔ x ∈ done ++ queue ∨ x ∈ rows.
Proof.
  revert queue. induction rows as [|r rows IH]; intros queue; simpl.
  - rewrite elem_of_nil. tauto.
  - rewrite IH, elem_of_cons. unfold enqueue.
    destruct (decide (r ∈ done ++ queue)) as [Hin|Hin].
    + split; [tauto|]. intros [?|[->|?]]; auto.
    + rewrite !elem_of_app, list_elem_of_singleton. tauto.
Qed.

Lemma NoDup_enqueue_foldl done queue rows :
  NoDup (done ++ queue) → NoDup (done ++ foldl (enqueue done) queue rows).
Proof.
  revert queue. induction rows as [|r rows IH]; intros queue Hnd; simpl; [done|].
  apply IH. unfold enqueue.
  destruct (decide (r ∈ done ++ queue)) as [Hin|Hin]; [done|].
  rewrite (assoc_L (++)). apply NoDup_app. split_and!; [done| |apply NoDup_singleton].
  intros y Hy ->%list_elem_of_singleton. done.
Qed.

(** An invariant of the queue and of the rows extracted so far holds of
    the result, once the queue is empty. *)
Lemma ugsLoop_invariant db (I : list ugsRow → list ugsRow → Prop) :
  (∀ done r q, I done (r :: q) →
     I (done ++ [r]) (foldl (enqueue (done ++ [r])) q (ugsRecursive db r))) →
  ∀ done queue, I done queue → I (ugsLoop db done queue) [].
Proof.
  intros Hstep done queue. funelim (ugsLoop db done queue); simp ugsLoop.
  all: intros HI; apply (H I Hstep); by apply Hstep.
Qed.

Lemma ugsValid_recursive db userId r x :
  ugsValid db userId r → x ∈ ugsRecursive db r → ugsValid db userId x.
Proof.
  intros Hr (c & Hc & Hn & Hor)%elem_of_ugsRecursive.
  unfold ugsValid in *. rewrite Hc. split; [done|].
  destruct Hor as [->|Hs].
  - destruct (r.2) as [c'|]; [tauto|]. exists r.1. split; [done|]. apply rtc_refl.
  - rewrite <- Hs in Hr. destruct Hr as [Hn' (d & Hd & Hrtc)].
    exists d. split; [done|]. eapply rtc_r; done.
Qed.

Lemma ugsInv_initial db userId :
  ugsInv db userId [] (foldl (enqueue []) [] (ugsInitial db userId)).
Proof.
  unfold ugsInv. split_and!.
  - apply NoDup_enqueue_foldl. simpl. apply NoDup_nil_2.
  - intros x [Hx|Hx]%elem_of_enqueue_foldl; [by apply elem_of_nil in Hx|].
    apply elem_of_ugsInitial in Hx as [Hc Hm]. unfold ugsValid. by rewrite Hc.
  - intros x Hx. apply elem_of_enqueue_foldl. by right.
  - intros r x Hr. by apply elem_of_nil in Hr.
Qed.

Lemma ugsInv_step db userId done r q :
  ugsInv db userId done (r :: q) →
  ugsInv db userId (done ++ [r]) (foldl (enqueue (done ++ [r])) q (ugsRecursive db r)).
Proof.
  intros (Hnd & Hval & Hinit & Hclosed).
  assert (Heq : (done ++ [r]) ++ q = done ++ r :: q) by (by rewrite <- (assoc_L (++))).
  unfold ugsInv. split_and!.
  - apply NoDup_enqueue_foldl. by rewrite Heq.
  - intros x [Hx|Hx]%elem_of_enqueue_foldl.
    + apply Hval. by rewrite <- Heq.
    + eapply ugsValid_recursive; [|done]. apply Hval.
      apply elem_of_app. right. by left.
  - intros x Hx. apply elem_of_enqueue_foldl. left. rewrite Heq. by apply Hinit.
  - intros r' x [Hr'| ->%list_elem_of_singleton]%elem_of_app Hx;
      apply elem_of_enqueue_foldl.
    + left. rewrite Heq. by eapply Hclosed.
    + by right.
Qed.

Lemma selectUsergroups_inv db userId :
  ugsInv db userId (selectUsergroups db userId) [].
Proof.
  unfold selectUsergroups.
  apply (ugsLoop_invariant db (ugsInv db userId)); [apply ugsInv_step|apply ugsInv_initial].
Qed.

Lemma NoDup_selectUsergroups db userId : NoDup (selectUsergroups db userId).
Proof.
  destruct (selectUsergroups_inv db userId) as (Hnd & _). by rewrite app_nil_r in Hnd.
Qed.

(** The rows of the recursive query are exactly the valid ones. *)
Lemma elem_of_selectUsergroups db userId r :
  r ∈ selectUsergroups db userId ↔ ugsValid db userId r.
Proof.
  destruct (selectUsergroups_inv db userId) as (_ & Hval & Hinit & Hclosed).
  rewrite app_nil_r in *.
  split; [apply Hval|].
  destruct r as [p [c|]]; unfold ugsValid; simpl.
  - intros [Hn (d & Hd & Hrtc)]. revert c Hn.
    apply (rtc_ind_r (R:=nests db)
             (λ p, ∀ c, nests db p c → (p, Some c) ∈ selectUsergroups db userId) d);
      [| |exact Hrtc].
    + intros c Hn. apply (Hclosed (d, None)).
      * apply Hinit, elem_of_ugsInitial. done.
      * apply elem_of_ugsRecursive. exists c. simpl. auto.
    + intros p' p'' _ Hstep IH c Hn. apply (Hclosed (p', Some p'')).
      * by apply IH.
      * apply elem_of_ugsRecursive. exists c. simpl. auto.
  - intros Hm. apply Hinit, elem_of_ugsInitial. done.
Qed.

Lemma length_selectUsergroups db userId :
  (length (selectUsergroups db userId) ≤
   length (UserGroup_membership_users db) + length (UserGroup_membership_usergroups db))%nat.
Proof.
  pose proof (NoDup_selectUsergroups db userId) as Hnd.
  assert (Hsub : selectUsergroups db userId ⊆ ugsInitial db userId ++ ugsEdgeRows db).
  { intros r Hr%elem_of_selectUsergroups. apply elem_of_app.
    destruct r as [p [c|]]; unfold ugsValid in Hr; simpl in Hr.
    - right. destruct Hr as [(m & Hm & <- & <-) _].
      unfold ugsEdgeRows. apply list_elem_of_fmap. eauto.
    - left. by apply elem_of_ugsInitial. }
  etrans; [apply submseteq_length, NoDup_submseteq; done|].
  rewrite length_app. unfold ugsInitial, ugsEdgeRows. rewrite !length_fmap.
  pose proof (length_filter (λ m, ugmu_user_id m = userId) (UserGroup_membership_users db)).
  lia.
Qed.

(** ** The partition of the rows *)

Lemma scanUsergroups_spec userId rows uigs ugigs :
  scanUsergroups userId rows uigs ugigs =
  {| UserInGroups := uigs ++ omap (directOf userId) rows;
     UserGroupInGroups := ugigs ++ omap nestedOf rows |}.
Proof.
  revert uigs ugigs. induction rows as [|[g [c|]] rows IH]; intros uigs ugigs; simpl.
  - by rewrite !app_nil_r.
  - rewrite IH. unfold directOf at 2, nestedOf at 2. simpl. by rewrite <- (assoc_L (++)).
  - rewrite IH. unfold directOf at 2, nestedOf at 2. simpl. by rewrite <- (assoc_L (++)).
Qed.

Lemma length_partition userId (rows : list ugsRow) :
  (length (omap (directOf userId) rows) + length (omap nestedOf rows) = length rows)%nat.
Proof.
  induction rows as [|[g [c|]] rows IH]; [done|..]; cbn; lia.
Qed.

(** ** The keys of the id maps *)

Lemma elem_of_bindParams (ids : gmap Z bool) k : k ∈ bindParams ids ↔ is_Some (ids !! k).
Proof.
  unfold bindParams. rewrite list_elem_of_fmap. split.
  - intros ([k' b] & -> & Hin). apply elem_of_map_to_list in Hin. by exists b.
  - intros [b Hb]. exists (k, b). split; [done|]. by apply elem_of_map_to_list.
Qed.

Lemma NoDup_bindParams (ids : gmap Z bool) : NoDup (bindParams ids).
Proof. apply NoDup_fst_map_to_list. Qed.

Lemma lookup_foldl_insert {A : Type} (f : A → Z) (l : list A) (ids : gmap Z bool) k :
  is_Some (foldl (λ ids x, <[f x := true]> ids) ids l !! k) ↔
  is_Some (ids !! k) ∨ ∃ x, x ∈ l ∧ f x = k.
Proof.
  revert ids. induction l as [|a l IH]; intros ids; simpl.
  - split; [auto|]. intros [?|(x & Hx & _)]; [done|]. by apply elem_of_nil in Hx.
  - rewrite IH, lookup_insert_is_Some. split.
    + intros [[Heq|[_ ?]]|(x & Hx & <-)]; [right|by left|right].
      * exists a. split; [by left|done].
      * exists x. split; [by right|done].
    + intros [?|(x & [->|Hx]%elem_of_cons & <-)].
      * destruct (decide (f a = k)); [left; by left|left; right; done].
      * left. by left.
      * right. eauto.
Qed.

Lemma elem_of_usergroupIds rels g :
  g ∈ bindParams (usergroupIdsOf rels) ↔
  (∃ uig, uig ∈ UserInGroups rels ∧ UsergroupId uig = g) ∨
  (∃ e, e ∈ UserGroupInGroups rels ∧ ChildUsergroupId e = g).
Proof.
  rewrite elem_of_bindParams. unfold usergroupIdsOf.
  rewrite (lookup_foldl_insert ChildUsergroupId), (lookup_foldl_insert UsergroupId).
  rewrite lookup_empty. split; [intros [[[? ?]|?]|?]|]; try done; eauto. tauto.
Qed.

Lemma elem_of_repogroupIds rels g :
  g ∈ bindParams (repogroupIdsOf rels) ↔ ∃ rel, rel ∈ rels ∧ RepogroupId rel = g.
Proof.
  rewrite elem_of_bindParams. unfold repogroupIdsOf.
  rewrite (lookup_foldl_insert RepogroupId), lookup_empty.
  split; [intros [[? ?]|?]|]; try done; eauto.
Qed.

(** ** The groups of the closure *)

Lemma closure_groups db userId g :
  g ∈ bindParams (usergroupIdsOf (scanUsergroups userId (selectUsergroups db userId) [] []))
  ↔ reachable db userId g.
Proof.
  rewrite elem_of_usergroupIds, scanUsergroups_spec. simpl. split.
  - intros [(uig & Hin & <-)|(e & Hin & <-)];
      apply list_elem_of_omap in Hin as ([p c] & Hr%elem_of_selectUsergroups & Hof).
    + unfold directOf in Hof. simpl in Hof. destruct c; [done|]. injection Hof as <-.
      simpl. exists p. split; [done|apply rtc_refl].
    + unfold nestedOf in Hof. simpl in Hof. destruct c as [c|]; [|done].
      injection Hof as <-. simpl. destruct Hr as [Hn (d & Hd & Hrtc)]. simpl in *.
      exists d. split; [done|]. eapply rtc_r; done.
  - intros (d & Hd & Hrtc). destruct (rtc_inv_r _ _ Hrtc) as [->|(p & Hrtc' & Hn)].
    + left. exists {| UserId := userId; UsergroupId := g |}. split; [|done].
      apply list_elem_of_omap. exists (g, None). split; [|done].
      by apply elem_of_selectUsergroups.
    + right. exists {| ParentUsergroupId := p; ChildUsergroupId := g |}. split; [|done].
      apply list_elem_of_omap. exists (p, Some g). split; [|done].
      apply elem_of_selectUsergroups. split; [done|]. by exists d.
Qed.

Lemma reachable_addNesting m db userId g :
  reachable db userId g → reachable (addNesting m db) userId g.
Proof.
  intros (d & Hd & Hrtc). exists d. split; [done|].
  eapply rtc_subrel; [|done]. intros p c (m' & Hm' & ? & ?).
  exists m'. split; [|done]. simpl. apply elem_of_app. by left.
Qed.

(** ** Decoding the rows of the role queries *)

Lemma scanRoles_inr {R : Type} (rolename : R → string) isRepogroup assign rows acc res :
  scanRoles rolename isRepogroup assign rows acc = inr res →
  Forall (λ row, decodes isRepogroup (rolename row)) rows.
Proof.
  revert acc. induction rows as [|row rows IH]; intros acc; simpl; [by constructor|].
  destruct (repoRoleStrToEnum (rolename row) isRepogroup) as [repoRole [err|]] eqn:Hdec;
    [done|].
  intros Hres. constructor; [|by eapply IH]. unfold decodes. by rewrite Hdec.
Qed.

Lemma not_decodes_owner : ¬ decodes true "owner".
Proof. done. Qed.


Lemma scanRoles_owner {R : Type} (rolename : R → string) assign rows acc :
  Exists (λ row, rolename row = "owner") rows →
  ∃ err, scanRoles rolename true assign rows acc = inl err.
Proof.
  intros Hex. destruct (scanRoles rolename true assign rows acc) as [err|res] eqn:Hres;
    [eauto|].
  apply scanRoles_inr in Hres. apply Exists_exists in Hex as (row & Hrow & Howner).
  eapply Forall_forall in Hres; [|done]. rewrite Howner in Hres.
  by apply not_decodes_owner in Hres.
Qed.

Lemma scanRoles_knownLabel {R : Type} (rolename : R → string) isRepogroup assign rows acc :
  Forall (λ row, knownLabel (rolename row)) rows →
  if decide (isRepogroup = true ∧ Exists (λ row, rolename row = "owner") rows)
  then scanRoles rolename isRepogroup assign rows acc =
       inl (Errorf "error when mapping db role to enum" errOwnerOnRepogroup)
  else ∃ res, scanRoles rolename isRepogroup assign rows acc = inr res.
Proof.
  revert acc. induction rows as [|row rows IH]; intros acc Hall; simpl.
  - rewrite decide_False; [eauto|]. intros [_ Hex]. by apply Exists_nil in Hex.
  - apply Forall_cons in Hall as [Hrow Hall]. specialize (IH (acc ++
      [assign row (repoRoleStrToEnum (rolename row) isRepogroup).1]) Hall).
    unfold repoRoleStrToEnum in *.
    destruct Hrow as [Hl|[Hl|Hl]]; rewrite Hl in *; simpl in *.
    + destruct isRepogroup.
      * rewrite decide_True; [done|]. split; [done|]. by left.
      * rewrite decide_False by (by intros [? _]).
        rewrite decide_False in IH by (by intros [? _]). done.
    + destruct (decide (isRepogroup = true ∧ Exists (λ row, rolename row = "owner") rows))
        as [[-> Hex]|Hn].
      * rewrite decide_True; [done|]. split; [done|]. by right.
      * rewrite decide_False; [done|]. intros [-> [Hbad|Hex]%Exists_cons]; [|by apply Hn].
        by rewrite Hl in Hbad.
    + destruct (decide (isRepogroup = true ∧ Exists (λ row, rolename row = "owner") rows))
        as [[-> Hex]|Hn].
      * rewrite decide_True; [done|]. split; [done|]. by right.
      * rewrite decide_False; [done|]. intros [-> [Hbad|Hex]%Exists_cons]; [|by apply Hn].
        by rewrite Hl in Hbad.
Qed.

(** When the aggregator returns assignments, no statement failed and
    every label of the four results decoded. *)
Lemma getAssignedRoles_inr userId repoId usergroupRels repogroupRels sqlTx log roles :
  (getAssignedRoles userId repoId usergroupRels repogroupRels sqlTx log).1 = inr roles →
  let db := snapshot sqlTx in
  let usergroupIds := bindParams (usergroupIdsOf usergroupRels) in
  let repogroupIds := bindParams (repogroupIdsOf repogroupRels) in
  Forall (decodes false) (selectUserRepoRoles db repoId userId) ∧
  Forall (λ row, decodes false row.2) (selectUsergroupRepoRoles db repoId usergroupIds) ∧
  Forall (λ row, decodes true row.2) (selectUserRepogroupRoles db userId repogroupIds) ∧
  Forall (λ row, decodes true row.2)
    (selectUsergroupRepogroupRoles db usergroupIds repogroupIds).
Proof.
  unfold getAssignedRoles, bindT, exec, retT. simpl.
  destruct (fault sqlTx SelectUserRepoRoles); [done|].
  destruct (scanRoles _ false _ (selectUserRepoRoles _ _ _) _) as [|r1] eqn:H1; [done|].
  simpl. destruct (fault sqlTx SelectUsergroupRepoRoles); [done|].
  destruct (scanRoles _ false _ (selectUsergroupRepoRoles _ _ _) _) as [|r2] eqn:H2; [done|].
  simpl. destruct (fault sqlTx SelectUserRepogroupRoles); [done|].
  destruct (scanRoles _ true _ (selectUserRepogroupRoles _ _ _) _) as [|r3] eqn:H3; [done|].
  simpl. destruct (fault sqlTx SelectUsergroupRepogroupRoles); [done|].
  destruct (scanRoles _ true _ (selectUsergroupRepogroupRoles _ _ _) _) as [|r4] eqn:H4;
    [done|].
  intros _. apply scanRoles_inr in H1, H2, H3, H4. done.
Qed.

Lemma getUsergroupsRecursive_ok userId sqlTx log :
  fault sqlTx SelectUsergroups = None →
  getUsergroupsRecursive userId sqlTx log =
  (inr (scanUsergroups userId (selectUsergroups (snapshot sqlTx) userId) [] []),
   log ++ [SelectUsergroups]).
Proof. intros Hf. unfold getUsergroupsRecursive, bindT, exec, retT. by rewrite Hf. Qed.

(** ** The aggregator *)

Lemma elem_of_selectUserRepoRoles db repoId userId label :
  label ∈ selectUserRepoRoles db repoId userId ↔ granted db (User userId) (Repo repoId) label.
Proof.
  unfold selectUserRepoRoles, granted. rewrite list_elem_of_bind. split.
  - intros (m & Hin & [[? ?] ?]%list_elem_of_filter).
    apply list_elem_of_bind in Hin as (e & ->%list_elem_of_singleton & [? ?]%list_elem_of_filter).
    by exists m, e.
  - intros (m & e & ? & ? & ? & ? & ? & <-). exists m. split; [|by apply list_elem_of_filter].
    apply list_elem_of_bind. exists e. split; [by apply list_elem_of_singleton|].
    by apply list_elem_of_filter.
Qed.

Lemma elem_of_selectUsergroupRepoRoles db repoId ids g label :
  (g, label) ∈ selectUsergroupRepoRoles db repoId ids ↔
  g ∈ ids ∧ granted db (Usergroup g) (Repo repoId) label.
Proof.
  unfold selectUsergroupRepoRoles, granted. rewrite list_elem_of_bind. split.
  - intros (m & Hin & [[? ?] ?]%list_elem_of_filter).
    apply list_elem_of_bind in Hin as (e & Heq%list_elem_of_singleton & [? ?]%list_elem_of_filter).
    injection Heq as -> ->. split; [done|]. by exists m, e.
  - intros (? & m & e & ? & <- & ? & ? & ? & <-). exists m.
    split; [|by apply list_elem_of_filter].
    apply list_elem_of_bind. exists e. split; [by apply list_elem_of_singleton|].
    by apply list_elem_of_filter.
Qed.

Lemma elem_of_selectUserRepogroupRoles db userId ids rg label :
  (rg, label) ∈ selectUserRepogroupRoles db userId ids ↔
  rg ∈ ids ∧ granted db (User userId) (Repogroup rg) label.
Proof.
  unfold selectUserRepogroupRoles, granted. rewrite list_elem_of_bind. split.
  - intros (m & Hin & [[? ?] ?]%list_elem_of_filter).
    apply list_elem_of_bind in Hin as (e & Heq%list_elem_of_singleton & [? ?]%list_elem_of_filter).
    injection Heq as -> ->. split; [done|]. by exists m, e.
  - intros (? & m & e & ? & ? & <- & ? & ? & <-). exists m.
    split; [|by apply list_elem_of_filter].
    apply list_elem_of_bind. exists e. split; [by apply list_elem_of_singleton|].
    by apply list_elem_of_filter.
Qed.

Lemma elem_of_selectUsergroupRepogroupRoles db ugids rgids rg g label :
  (rg, g, label) ∈ selectUsergroupRepogroupRoles db ugids rgids ↔
  g ∈ ugids ∧ rg ∈ rgids ∧ granted db (Usergroup g) (Repogroup rg) label.
Proof.
  unfold selectUsergroupRepogroupRoles, granted. rewrite list_elem_of_bind. split.
  - intros (m & Hin & [[? ?] ?]%list_elem_of_filter).
    apply list_elem_of_bind in Hin as (e & Heq%list_elem_of_singleton & [? ?]%list_elem_of_filter).
    injection Heq as -> -> ->. split_and!; [done..|]. by exists m, e.
  - intros (? & ? & m & e & ? & <- & <- & ? & ? & <-). exists m.
    split; [|by apply list_elem_of_filter].
    apply list_elem_of_bind. exists e. split; [by apply list_elem_of_singleton|].
    by apply list_elem_of_filter.
Qed.

Lemma scanRoles_spec {R : Type} (rolename : R → string) isRepogroup assign rows acc res :
  scanRoles rolename isRepogroup assign rows acc = inr res →
  res = acc ++ ((λ row, assign row (repoRoleStrToEnum (rolename row) isRepogroup).1) <$> rows).
Proof.
  revert acc. induction rows as [|row rows IH]; intros acc; simpl.
  - intros [= <-]. by rewrite app_nil_r.
  - destruct (repoRoleStrToEnum (rolename row) isRepogroup) as [repoRole [err|]] eqn:Hdec;
      [done|].
    intros ->%IH. by rewrite <- (assoc_L (++)).
Qed.

(** The assignments the aggregator returns are those of the granted
    roles whose principal and resource are among the ids it was given. *)
Lemma getAssignedRoles_spec userId repoId usergroupRels repogroupRels sqlTx log roles :
  (getAssignedRoles userId repoId usergroupRels repogroupRels sqlTx log).1 = inr roles →
  ∀ a, a ∈ roles ↔
    ∃ p r label,
      granted (snapshot sqlTx) p r label ∧
      match p with
      | User u => u = userId
      | Usergroup g => g ∈ bindParams (usergroupIdsOf usergroupRels)
      end ∧
      match r with
      | Repo rp => rp = repoId
      | Repogroup rg => rg ∈ bindParams (repogroupIdsOf repogroupRels)
      end ∧
      decodes (isRepogroupOf r) label ∧
      a = assignmentOf p r label.
Proof.
  intros Hres. pose proof (getAssignedRoles_inr _ _ _ _ _ _ _ Hres) as (D1 & D2 & D3 & D4).
  revert Hres. unfold getAssignedRoles, bindT, exec, retT. simpl.
  destruct (fault sqlTx SelectUserRepoRoles); [done|].
  destruct (scanRoles _ false _ (selectUserRepoRoles _ _ _) _) as [|r1] eqn:H1; [done|].
  simpl. destruct (fault sqlTx SelectUsergroupRepoRoles); [done|].
  destruct (scanRoles _ false _ (selectUsergroupRepoRoles _ _ _) _) as [|r2] eqn:H2; [done|].
  simpl. destruct (fault sqlTx SelectUserRepogroupRoles); [done|].
  destruct (scanRoles _ true _ (selectUserRepogroupRoles _ _ _) _) as [|r3] eqn:H3; [done|].
  simpl. destruct (fault sqlTx SelectUsergroupRepogroupRoles); [done|].
  destruct (scanRoles _ true _ (selectUsergroupRepogroupRoles _ _ _) _) as [|r4] eqn:H4;
    [done|].
  intros [= <-]. apply scanRoles_spec in H1, H2, H3, H4. subst r1 r2 r3 r4. simpl.
  intros a. rewrite !elem_of_app, !list_elem_of_fmap. split.
  - intros [[[(label & -> & Hin)|([g label] & -> & Hin)]|([rg label] & -> & Hin)]
           |([[rg g] label] & -> & Hin)].
    + exists (User userId), (Repo repoId), label. split_and!; try done.
      * by apply elem_of_selectUserRepoRoles.
      * by apply (proj1 (Forall_forall _ _) D1).
    + apply elem_of_selectUsergroupRepoRoles in Hin as Hg.
      exists (Usergroup g), (Repo repoId), label. split_and!; try done; try tauto.
      by apply (proj1 (Forall_forall _ _) D2 _ Hin).
    + apply elem_of_selectUserRepogroupRoles in Hin as Hg.
      exists (User userId), (Repogroup rg), label. split_and!; try done; try tauto.
      by apply (proj1 (Forall_forall _ _) D3 _ Hin).
    + apply elem_of_selectUsergroupRepogroupRoles in Hin as Hg.
      exists (Usergroup g), (Repogroup rg), label. split_and!; try done; try tauto.
      by apply (proj1 (Forall_forall _ _) D4 _ Hin).
  - intros ([u|g] & [rp|rg] & label & Hgr & Hp & Hr & Hdec & ->).
    + subst. left. left. left. exists label. split; [done|].
      by apply elem_of_selectUserRepoRoles.
    + subst. left. right. exists (rg, label). split; [done|].
      by apply elem_of_selectUserRepogroupRoles.
    + subst. left. left. right. exists (g, label). split; [done|].
      by apply elem_of_selectUsergroupRepoRoles.
    + right. exists (rg, g, label). split; [done|].
      by apply elem_of_selectUsergroupRepogroupRoles.
Qed.

(** What a successful [GatherRequestDetails] returns. *)
Lemma GatherRequestDetails_inr userId reponame dbInstance log reqDetails log' :
  GatherRequestDetails userId reponame dbInstance log = (inr reqDetails, log') →
  let db := sqliteDb dbInstance in
  reqUserId reqDetails = userId ∧
  (∃ name rest, selectRepo db reponame = (reqRepoId reqDetails, name) :: rest) ∧
  reqUsergroupRelationships reqDetails =
    scanUsergroups userId (selectUsergroups db userId) [] [] ∧
  reqRepogroupRels reqDetails =
    ((λ g, {| RepogroupId := g; RepoId := reqRepoId reqDetails |}) <$>
       selectRepogroups db (reqRepoId reqDetails)) ∧
  ∃ l, (getAssignedRoles userId (reqRepoId reqDetails)
          (reqUsergroupRelationships reqDetails) (reqRepogroupRels reqDetails)
          {| snapshot := db; fault := driverFault dbInstance |} l).1 =
       inr (reqAssignedRoles reqDetails).
Proof.
  unfold GatherRequestDetails, checkUserInDb, getUsergroupsRecursive, checkRepoInDb,
    getRepogroupRels, bindT, exec, retT. simpl.
  destruct (driverFault dbInstance BeginTx); [done|].
  destruct (driverFault dbInstance SelectUser); [done|].
  destruct (selectUser (sqliteDb dbInstance) userId) as [|[? username] ?]; [done|].
  destruct (driverFault dbInstance SelectUsergroups); [done|].
  destruct (driverFault dbInstance SelectRepo); [done|].
  destruct (selectRepo (sqliteDb dbInstance) reponame) as [|[repoId name] rest] eqn:Hrepo;
    [done|].
  destruct (driverFault dbInstance SelectRepogroups); [done|].
  match goal with |- context [getAssignedRoles ?u ?r ?ug ?rg ?tx ?l] =>
    destruct (getAssignedRoles u r ug rg tx l) as [[err|roles] l'] eqn:Hroles end; [done|].
  simpl. destruct (driverFault dbInstance Commit); [done|].
  intros [= <- <-]. simpl. split_and!; eauto.
  eexists. by rewrite Hroles.
Qed.

End dblogic_props.

(** * Facts about package authz *)

Module authz_props.
Import biscuit authz.

(** ** Vocabulary *)

Definition knownOperation (operation : Action) : Prop :=
  operation = Membership ∨ operation = Read ∨ operation = Write.

(** The tags of an assignment are among those the switches know. *)
Definition wellTagged (a : dblogic.AssignedRole) : Prop :=
  (dblogic.UserOrGroup a = dblogic.UserUGR ∨ dblogic.UserOrGroup a = dblogic.UsergroupUGR) ∧
  (dblogic.RepoOrGroup a = dblogic.RepoUGR ∨ dblogic.RepoOrGroup a = dblogic.RepogroupUGR) ∧
  (dblogic.RepoRole a = dblogic.OwnerRole ∨ dblogic.RepoRole a = dblogic.ReaderRole ∨
   dblogic.RepoRole a = dblogic.WriterRole).

#[global] Instance wellTagged_dec a : Decision (wellTagged a).
Proof. unfold wellTagged. apply _. Defined.

(** The name of a role in the role to action table. *)
Definition roleLabel (repoRole : dblogic.RepoRoleType) : option string :=
  if decide (repoRole = dblogic.OwnerRole) then Some ownerRoleStr
  else if decide (repoRole = dblogic.ReaderRole) then Some readerRoleStr
  else if decide (repoRole = dblogic.WriterRole) then Some writerRoleStr
  else None.

(** The requested action is among the actions the table allows to the
    role. *)
Definition permits (repoRole : dblogic.RepoRoleType) (operation : Action) : Prop :=
  ∃ rra actionStr,
    rra ∈ repoRoleActionsTable ∧
    roleLabel repoRole = Some (RoleName rra) ∧
    operationActionStr operation = Returned actionStr ∧
    actionStr ∈ RoleAllowedActions rra.

(** The same, evaluated. *)
Definition permitsb (repoRole : dblogic.RepoRoleType) (operation : Action) : bool :=
  match roleLabel repoRole, operationActionStr operation with
  | Some label, Returned actionStr =>
      existsb (λ rra, bool_decide (RoleName rra = label) &&
                      bool_decide (actionStr ∈ RoleAllowedActions rra))
        repoRoleActionsTable
  | _, _ => false
  end.

(** The issuer, the tokens and the requests of the examples. *)
Definition exampleIssuer : TokenIssuer := {| privateRoot := 7; PublicRoot := 7 |}.

Definition issued (userId : Z) : Biscuit :=
  {| rootKey := 7; authority := [fact_user ("userid:" +:+ pretty userId)]; checks := [] |}.

Definition exampleNow : string := "2024-03-30T19:00:10Z".

(** What [GatherRequestDetails] returns for Liam (4) on Charlie and for
    Tony (5) on Bravo. *)
Definition liamCharlie : dblogic.RequestDetails := {|
  dblogic.reqUserId := 4;
  dblogic.reqUsername := "Liam";
  dblogic.reqUsergroupRelationships :=
    {| dblogic.UserInGroups := [ {| dblogic.UserId := 4; dblogic.UsergroupId := 1 |} ];
       dblogic.UserGroupInGroups :=
         [ {| dblogic.ParentUsergroupId := 1; dblogic.ChildUsergroupId := 2 |};
           {| dblogic.ParentUsergroupId := 2; dblogic.ChildUsergroupId := 3 |} ] |};
  dblogic.reqRepoId := 3;
  dblogic.reqRepoName := "Charlie";
  dblogic.reqRepogroupRels := [ {| dblogic.RepogroupId := 1; dblogic.RepoId := 3 |} ];
  dblogic.reqAssignedRoles :=
    [ {| dblogic.UserOrGroup := dblogic.UsergroupUGR; dblogic.UserOrGroupID := 1;
         dblogic.RepoOrGroup := dblogic.RepogroupUGR; dblogic.RepoOrGroupID := 1;
         dblogic.RepoRole := dblogic.WriterRole |} ]
|}.

Definition tonyBravo : dblogic.RequestDetails := {|
  dblogic.reqUserId := 5;
  dblogic.reqUsername := "Tony";
  dblogic.reqUsergroupRelationships :=
    {| dblogic.UserInGroups := [ {| dblogic.UserId := 5; dblogic.UsergroupId := 3 |} ];
       dblogic.UserGroupInGroups := [] |};
  dblogic.reqRepoId := 2;
  dblogic.reqRepoName := "Bravo";
  dblogic.reqRepogroupRels := [ {| dblogic.RepogroupId := 1; dblogic.RepoId := 2 |} ];
  dblogic.reqAssignedRoles := []
|}.


(** Liam's request with one assignment of another user, Olivia (1), as
    owner of another repo, Alpha (1). *)
Definition foreignAssignment : dblogic.RequestDetails := {|
  dblogic.reqUserId := 4;
  dblogic.reqUsername := "Liam";
  dblogic.reqUsergroupRelationships := dblogic.reqUsergroupRelationships liamCharlie;
  dblogic.reqRepoId := 3;
  dblogic.reqRepoName := "Charlie";
  dblogic.reqRepogroupRels := dblogic.reqRepogroupRels liamCharlie;
  dblogic.reqAssignedRoles :=
    [ {| dblogic.UserOrGroup := dblogic.UserUGR; dblogic.UserOrGroupID := 1;
         dblogic.RepoOrGroup := dblogic.RepoUGR; dblogic.RepoOrGroupID := 1;
         dblogic.RepoRole := dblogic.OwnerRole |} ]
|}.

(** ** Strings *)

Lemma append_inj_r (p a b : string) : p +:+ a = p +:+ b → a = b.
Proof. induction p as [|c p IH]; simpl; [done|]. intros [= ?]. auto. Qed.

Lemma namespaceAuthz_inj ns a b : namespaceAuthz a ns = namespaceAuthz b ns → a = b.
Proof. unfold namespaceAuthz. intros H. by do 2 apply append_inj_r in H. Qed.

(** ** Lists *)

Lemma existsb_elem_of {A : Type} (f : A → bool) (l : list A) :
  existsb f l = true ↔ ∃ x, x ∈ l ∧ f x = true.
Proof.
  rewrite existsb_exists. split; intros (x & Hx & Hf); exists x;
    (split; [by apply list_elem_of_In|done]).
Qed.

Lemma omap_fmap_None {A B C : Type} (f : B → option C) (g : A → B) (l : list A) :
  (∀ x, f (g x) = None) → omap f (g <$> l) = [].
Proof. intros H. induction l as [|x l IH]; csimpl; [done|]. by rewrite H. Qed.

Lemma omap_fmap_Some {A B C : Type} (f : B → option C) (g : A → B) (h : A → C)
    (l : list A) :
  (∀ x, f (g x) = Some (h x)) → omap f (g <$> l) = h <$> l.
Proof. intros H. induction l as [|x l IH]; csimpl; [done|]. by rewrite H, IH. Qed.

(** ** The facts of the authorizer text *)

Lemma userFacts_authzFacts d : userFacts (authzFacts d) = [].
Proof.
  unfold userFacts, authzFacts. rewrite !omap_app.
  rewrite !omap_fmap_None by done. done.
Qed.


Lemma repoRoleActionsFacts_authzFacts d :
  repoRoleActionsFacts (authzFacts d) =
  (λ rra, (namespaceRole (RoleName rra),
           (λ action, namespaceAuthz action actionNS) <$> RoleAllowedActions rra))
    <$> RepoRoleActions d.
Proof.
  unfold repoRoleActionsFacts, authzFacts. rewrite !omap_app.
  rewrite (omap_fmap_Some _ _ (λ rra, (namespaceRole (RoleName rra),
    (λ action, namespaceAuthz action actionNS) <$> RoleAllowedActions rra))) by done.
  rewrite !omap_fmap_None by done. simpl. by rewrite app_nil_r.
Qed.








(** ** The evaluation derives what the rules derive *)










(** ** The loop over the assignments *)

Lemma roleFact_Returned a ar :
  roleFact a = Returned ar →
  wellTagged a ∧ ∃ label, roleLabel (dblogic.RepoRole a) = Some label ∧
                          Role ar = namespaceRole label.
Proof.
  unfold roleFact, wellTagged, roleLabel.
  repeat case_decide; try done; intros [= <-]; simpl; split_and?; eauto.
Qed.


Lemma roleFact_Fatal a : ¬ wellTagged a → ∃ msg, roleFact a = Fatal msg.
Proof.
  intros Hn. destruct (roleFact a) as [ar|msg] eqn:Heq; [|eauto].
  by apply roleFact_Returned in Heq as [? _].
Qed.

Lemma roleFacts_loop_Returned l acc ars :
  roleFacts_loop l acc = Returned ars →
  ∃ ars', ars = acc ++ ars' ∧ Forall2 (λ a ar, roleFact a = Returned ar) l ars'.
Proof.
  revert acc. induction l as [|a l IH]; intros acc; simpl.
  - intros [= <-]. exists []. by rewrite app_nil_r.
  - destruct (roleFact a) as [ar|msg] eqn:Ha; [|done].
    intros (ars' & -> & Hall)%IH. exists (ar :: ars').
    rewrite <- (assoc_L (++)). split; [done|]. by constructor.
Qed.


Lemma roleFacts_loop_Fatal l acc :
  Exists (λ a, ¬ wellTagged a) l → ∃ msg, roleFacts_loop l acc = Fatal msg.
Proof.
  intros Hex. destruct (roleFacts_loop l acc) as [ars|msg] eqn:Heq; [|eauto].
  apply roleFacts_loop_Returned in Heq as (ars' & _ & Hall). exfalso.
  induction Hall as [|a ar l ars'' Ha Hall IH]; [by apply Exists_nil in Hex|].
  apply Exists_cons in Hex as [Hn|Hex]; [|by apply IH].
  by apply roleFact_Returned in Ha as [? _].
Qed.

Lemma operationActionStr_Returned operation actionStr :
  operationActionStr operation = Returned actionStr → knownOperation operation.
Proof.
  unfold operationActionStr, knownOperation. repeat case_decide; try done; auto.
Qed.


Lemma authzDetailsFor_Returned reqDetails operation now d :
  authzDetailsFor reqDetails operation now = Returned d →
  operationActionStr operation = Returned (ActionStr d) ∧
  RepoRoleActions d = repoRoleActionsTable ∧
  Forall2 (λ a ar, roleFact a = Returned ar)
    (dblogic.reqAssignedRoles reqDetails) (AssignedRoles d).
Proof.
  unfold authzDetailsFor.
  destruct (operationActionStr operation) as [actionStr|] eqn:Hop; [|done].
  destruct (roleFacts_loop _ _) as [ars|] eqn:Hloop; [|done].
  intros [= <-]. simpl.
  apply roleFacts_loop_Returned in Hloop as (ars' & -> & Hall). done.
Qed.


(** ** The policy on the facts of [CheckAuthz] *)




Lemma Forall2_elem_of_r {A B : Type} (P : A → B → Prop) l k y :
  Forall2 P l k → y ∈ k → ∃ x, x ∈ l ∧ P x y.
Proof.
  intros Hall (i & Hi)%list_elem_of_lookup.
  destruct (Forall2_lookup_r _ _ _ _ _ Hall Hi) as (x & Hx & HP).
  exists x. split; [|done]. apply list_elem_of_lookup. eauto.
Qed.






Lemma permits_permitsb repoRole operation :
  permits repoRole operation ↔ permitsb repoRole operation = true.
Proof.
  unfold permits, permitsb. split.
  - intros (rra & actionStr & Hin & -> & -> & Hact).
    apply existsb_elem_of. exists rra. split; [done|].
    by rewrite !bool_decide_eq_true_2.
  - destruct (roleLabel repoRole) as [label|]; [|done].
    destruct (operationActionStr operation) as [actionStr|]; [|done].
    intros (rra & Hin & [Hname Hact]%andb_true_iff)%existsb_elem_of.
    apply bool_decide_eq_true in Hname as <-. apply bool_decide_eq_true in Hact.
    by exists rra, actionStr.
Qed.

Lemma permitsb_known repoRole operation :
  permitsb repoRole operation = true → knownOperation operation.
Proof.
  unfold permitsb. destruct (roleLabel repoRole); [|done].
  destruct (operationActionStr operation) eqn:Hop; [|done].
  intros _. by eapply operationActionStr_Returned.
Qed.

Lemma permits_table operation :
  (permits dblogic.OwnerRole operation ↔
   operation = Membership ∨ operation = Write ∨ operation = Read) ∧
  (permits dblogic.WriterRole operation ↔ operation = Write ∨ operation = Read) ∧
  (permits dblogic.ReaderRole operation ↔ operation = Read).
Proof.
  rewrite !permits_permitsb. split_and!; split.
  - intros [-> | [-> | ->]]%permitsb_known; auto.
  - by intros [-> | [-> | ->]].
  - intros H. destruct (permitsb_known _ _ H) as [-> | [-> | ->]]; auto. done.
  - by intros [-> | ->].
  - intros H. destruct (permitsb_known _ _ H) as [-> | [-> | ->]]; auto; done.
  - by intros ->.
Qed.

End authz_props.

(** * Facts about the two packages together *)

Module decision_props.
Import biscuit authz_props dblogic_props.


Lemma roleLabel_decodes isRepogroup label :
  decodes isRepogroup label →
  roleLabel (dblogic.repoRoleStrToEnum label isRepogroup).1 = Some label.
Proof.
  unfold decodes, dblogic.repoRoleStrToEnum.
  repeat case_decide; subst; try done. by destruct isRepogroup.
Qed.



(** For a gathered request, the ids bound in the [IN] lists are the
    usergroups of the closure and the repogroups of the repo. *)
Lemma gathered_ids userId reponame dbInstance log reqDetails log' :
  dblogic.GatherRequestDetails userId reponame dbInstance log = (inr reqDetails, log') →
  (∀ g, g ∈ dblogic.bindParams (dblogic.usergroupIdsOf
               (dblogic.reqUsergroupRelationships reqDetails)) ↔
        reachable (dblogic.sqliteDb dbInstance) userId g) ∧
  (∀ rg, rg ∈ dblogic.bindParams (dblogic.repogroupIdsOf
                (dblogic.reqRepogroupRels reqDetails)) ↔
         inRepogroup (dblogic.sqliteDb dbInstance) (dblogic.reqRepoId reqDetails) rg).
Proof.
  intros (_ & _ & Hug & Hrg & _)%GatherRequestDetails_inr. split.
  - intros g. rewrite Hug. apply closure_groups.
  - intros rg. rewrite elem_of_repogroupIds, Hrg.
    unfold inRepogroup, dblogic.selectRepogroups. split.
    + intros (rel & (g & -> & Hg)%list_elem_of_fmap & <-). simpl.
      apply list_elem_of_fmap in Hg as (m & -> & [? ?]%list_elem_of_filter). by exists m.
    + intros (m & ? & ? & <-).
      exists {| dblogic.RepogroupId := dblogic.rgm_repogroup_id m;
                dblogic.RepoId := dblogic.reqRepoId reqDetails |}.
      split; [|done]. apply list_elem_of_fmap. eexists. split; [done|].
      apply list_elem_of_fmap. exists m. split; [done|]. by apply list_elem_of_filter.
Qed.

(** A request is gathered only if the label of every relevant grant
    decodes. *)
Lemma gathered_decodes userId reponame dbInstance log reqDetails log' p r label :
  dblogic.GatherRequestDetails userId reponame dbInstance log = (inr reqDetails, log') →
  granted (dblogic.sqliteDb dbInstance) p r label →
  relevant (dblogic.sqliteDb dbInstance) userId (dblogic.reqRepoId reqDetails) p r →
  decodes (isRepogroupOf r) label.
Proof.
  intros Hgather Hgr [Hp Hr].
  destruct (gathered_ids _ _ _ _ _ _ Hgather) as [Hug Hrg].
  apply GatherRequestDetails_inr in Hgather as (_ & _ & _ & _ & l & Hroles).
  apply getAssignedRoles_inr in Hroles as (D1 & D2 & D3 & D4). simpl in *.
  destruct p as [u|g], r as [rp|rg]; simpl; subst.
  - apply (proj1 (Forall_forall _ _) D1). by apply elem_of_selectUserRepoRoles.
  - apply (proj1 (Forall_forall _ _) D3 (rg, label)).
    apply elem_of_selectUserRepogroupRoles. split; [by apply Hrg|done].
  - apply (proj1 (Forall_forall _ _) D2 (g, label)).
    apply elem_of_selectUsergroupRepoRoles. split; [by apply Hug|done].
  - apply (proj1 (Forall_forall _ _) D4 (rg, g, label)).
    apply elem_of_selectUsergroupRepogroupRoles. split_and!; [by apply Hug|by apply Hrg|done].
Qed.

(** The assignments gathered for a request are those of the relevant
    grants of the store. *)
Lemma gathered_assignments userId reponame dbInstance log reqDetails log' :
  dblogic.GatherRequestDetails userId reponame dbInstance log = (inr reqDetails, log') →
  ∀ a, a ∈ dblogic.reqAssignedRoles reqDetails ↔
    ∃ p r label,
      granted (dblogic.sqliteDb dbInstance) p r label ∧
      relevant (dblogic.sqliteDb dbInstance) userId (dblogic.reqRepoId reqDetails) p r ∧
      a = assignmentOf p r label.
Proof.
  intros Hgather a. destruct (gathered_ids _ _ _ _ _ _ Hgather) as [Hug Hrg].
  pose proof (GatherRequestDetails_inr _ _ _ _ _ _ Hgather) as (_ & _ & _ & _ & l & Hroles).
  rewrite (getAssignedRoles_spec _ _ _ _ _ _ _ Hroles). simpl. unfold relevant. split.
  - intros (p & r & label & ? & Hp & Hr & ? & ?). exists p, r, label. split_and!; try done.
    + destruct p; [done|]. by apply Hug.
    + destruct r; [done|]. by apply Hrg.
  - intros (p & r & label & Hgr & [Hp Hr] & ?). exists p, r, label. split_and!; try done.
    + destruct p; [done|]. by apply Hug.
    + destruct r; [done|]. by apply Hrg.
    + by eapply gathered_decodes.
Qed.

End decision_props.

(** * Facts about the statements issued *)

Module trace_props.
Import dblogic dblogic_props.

(** The four role queries of [getAssignedRoles] and the eight queries of
    [GatherRequestDetails], in the order of the code. *)
Definition roleQueries : list Stmt :=
  [SelectUserRepoRoles; SelectUsergroupRepoRoles;
   SelectUserRepogroupRoles; SelectUsergroupRepogroupRoles].

Definition queries : list Stmt :=
  [SelectUser; SelectUsergroups; SelectRepo; SelectRepogroups] ++ roleQueries.

Lemma getAssignedRoles_trace userId repoId usergroupRels repogroupRels sqlTx log :
  (∃ roles, getAssignedRoles userId repoId usergroupRels repogroupRels sqlTx log =
            (inr roles, log ++ roleQueries)) ∨
  (∃ err n, (1 ≤ n ≤ 4)%nat ∧
            getAssignedRoles userId repoId usergroupRels repogroupRels sqlTx log =
            (inl err, log ++ take n roleQueries)).
Proof.
  unfold getAssignedRoles, bindT, exec, retT, roleQueries. simpl.
  destruct (fault sqlTx SelectUserRepoRoles);
    [right; eexists _, 1%nat; split; [lia|done]|].
  destruct (scanRoles _ _ _ _ _); [right; eexists _, 1%nat; split; [lia|done]|].
  destruct (fault sqlTx SelectUsergroupRepoRoles);
    [right; eexists _, 2%nat; split; [lia|by rewrite <- !(assoc_L (++))]|].
  destruct (scanRoles _ _ _ _ _);
    [right; eexists _, 2%nat; split; [lia|by rewrite <- !(assoc_L (++))]|].
  destruct (fault sqlTx SelectUserRepogroupRoles);
    [right; eexists _, 3%nat; split; [lia|by rewrite <- !(assoc_L (++))]|].
  destruct (scanRoles _ _ _ _ _);
    [right; eexists _, 3%nat; split; [lia|by rewrite <- !(assoc_L (++))]|].
  destruct (fault sqlTx SelectUsergroupRepogroupRoles);
    [right; eexists _, 4%nat; split; [lia|by rewrite <- !(assoc_L (++))]|].
  destruct (scanRoles _ _ _ _ _);
    [right; eexists _, 4%nat; split; [lia|by rewrite <- !(assoc_L (++))]|].
  left. eexists. by rewrite <- !(assoc_L (++)).
Qed.

Lemma getAssignedRoles_no_fault userId repoId usergroupRels repogroupRels sqlTx log roles :
  (getAssignedRoles userId repoId usergroupRels repogroupRels sqlTx log).1 = inr roles →
  Forall (λ st, fault sqlTx st = None) roleQueries.
Proof.
  unfold getAssignedRoles, bindT, exec, retT, roleQueries. simpl.
  destruct (fault sqlTx SelectUserRepoRoles) eqn:H1; [done|].
  destruct (scanRoles _ _ _ _ _); [done|].
  destruct (fault sqlTx SelectUsergroupRepoRoles) eqn:H2; [done|].
  destruct (scanRoles _ _ _ _ _); [done|].
  destruct (fault sqlTx SelectUserRepogroupRoles) eqn:H3; [done|].
  destruct (scanRoles _ _ _ _ _); [done|].
  destruct (fault sqlTx SelectUsergroupRepogroupRoles) eqn:H4; [done|].
  intros _. by repeat constructor.
Qed.


End trace_props.

(** * Facts about the aggregator *)

Module aggregator_props.
Import dblogic dblogic_props.

(** The assignments [getAssignedRoles] appends for each of its four
    queries, in the order of the queries and of their rows. *)
Definition assignmentsOf (db : Database) (userId repoId : Z)
    (usergroupIds repogroupIds : list Z) : list AssignedRole :=
  ((λ label, assignmentOf (User userId) (Repo repoId) label)
     <$> selectUserRepoRoles db repoId userId) ++
  ((λ row : Z * string, assignmentOf (Usergroup row.1) (Repo repoId) row.2)
     <$> selectUsergroupRepoRoles db repoId usergroupIds) ++
  ((λ row : Z * string, assignmentOf (User userId) (Repogroup row.1) row.2)
     <$> selectUserRepogroupRoles db userId repogroupIds) ++
  ((λ row : Z * Z * string, assignmentOf (Usergroup row.1.2) (Repogroup row.1.1) row.2)
     <$> selectUsergroupRepogroupRoles db usergroupIds repogroupIds).

(** The labels of the rows of the four queries all decode. *)
Definition labelsDecode (db : Database) (userId repoId : Z)
    (usergroupIds repogroupIds : list Z) : Prop :=
  Forall (decodes false) (selectUserRepoRoles db repoId userId) ∧
  Forall (λ row, decodes false row.2) (selectUsergroupRepoRoles db repoId usergroupIds) ∧
  Forall (λ row, decodes true row.2) (selectUserRepogroupRoles db userId repogroupIds) ∧
  Forall (λ row, decodes true row.2)
    (selectUsergroupRepogroupRoles db usergroupIds repogroupIds).

Lemma repoRoleStrToEnum_error label isRepogroup err :
  (repoRoleStrToEnum label isRepogroup).2 = Some err →
  (repoRoleStrToEnum label isRepogroup).1 = UnknownRole ∧ ∃ msg, err = ErrorString msg.
Proof.
  unfold repoRoleStrToEnum, errOwnerOnRepogroup.
  repeat case_decide; try destruct isRepogroup; simpl; try done; intros [= <-]; eauto.
Qed.

Lemma scanRoles_decodes {R : Type} (rolename : R → string) isRepogroup assign rows acc :
  Forall (λ row, decodes isRepogroup (rolename row)) rows →
  scanRoles rolename isRepogroup assign rows acc =
  inr (acc ++ ((λ row, assign row (repoRoleStrToEnum (rolename row) isRepogroup).1) <$> rows)).
Proof.
  revert acc. induction rows as [|row rows IH]; intros acc Hall; simpl.
  - by rewrite app_nil_r.
  - apply Forall_cons in Hall as [Hrow Hall]. unfold decodes in Hrow.
    destruct (repoRoleStrToEnum (rolename row) isRepogroup) as [repoRole [err|]]; [done|].
    rewrite IH by done. by rewrite <- (assoc_L (++)).
Qed.

Lemma scanRoles_inl {R : Type} (rolename : R → string) isRepogroup assign rows acc err :
  scanRoles rolename isRepogroup assign rows acc = inl err →
  ¬ Forall (λ row, decodes isRepogroup (rolename row)) rows ∧
  ∃ msg, err = Errorf "error when mapping db role to enum" (ErrorString msg).
Proof.
  intros Hs. split.
  - intros Hall. by rewrite (scanRoles_decodes _ _ _ _ _ Hall) in Hs.
  - revert acc Hs. induction rows as [|row rows IH]; intros acc; simpl; [done|].
    destruct (repoRoleStrToEnum (rolename row) isRepogroup) as [repoRole [e|]] eqn:Hdec.
    + intros [= <-].
      destruct (repoRoleStrToEnum_error (rolename row) isRepogroup e) as (_ & msg & ->);
        [by rewrite Hdec|]. by eexists.
    + apply IH.
Qed.

(** [getAssignedRoles] when the driver does not fail: the assignments of
    the four queries, or the error of the first label that does not
    decode. *)
Lemma getAssignedRoles_no_driver_fault userId repoId usergroupRels repogroupRels sqlTx log :
  Forall (λ st, fault sqlTx st = None)
    [SelectUserRepoRoles; SelectUsergroupRepoRoles;
     SelectUserRepogroupRoles; SelectUsergroupRepogroupRoles] →
  let db := snapshot sqlTx in
  let usergroupIds := bindParams (usergroupIdsOf usergroupRels) in
  let repogroupIds := bindParams (repogroupIdsOf repogroupRels) in
  let result := (getAssignedRoles userId repoId usergroupRels repogroupRels sqlTx log).1 in
  (labelsDecode db userId repoId usergroupIds repogroupIds ∧
   result = inr (assignmentsOf db userId repoId usergroupIds repogroupIds)) ∨
  (¬ labelsDecode db userId repoId usergroupIds repogroupIds ∧
   ∃ msg, result = inl (Errorf "error when mapping db role to enum" (ErrorString msg))).
Proof.
  rewrite !Forall_cons. intros (F1 & F2 & F3 & F4 & _) db usergroupIds repogroupIds result.
  subst result db usergroupIds repogroupIds. unfold labelsDecode, assignmentsOf.
  unfold getAssignedRoles, bindT, exec, retT. simpl. rewrite F1, F2, F3, F4.
  destruct (scanRoles _ false _ (selectUserRepoRoles _ _ _) _) as [e|r1] eqn:H1.
  { apply scanRoles_inl in H1 as [Hn [msg ->]]. right. split; [tauto|by eexists]. }
  apply scanRoles_inr in H1 as D1. apply scanRoles_spec in H1. simpl.
  destruct (scanRoles _ false _ (selectUsergroupRepoRoles _ _ _) _) as [e|r2] eqn:H2.
  { apply scanRoles_inl in H2 as [Hn [msg ->]]. right. split; [tauto|by eexists]. }
  apply scanRoles_inr in H2 as D2. apply scanRoles_spec in H2. simpl.
  destruct (scanRoles _ true _ (selectUserRepogroupRoles _ _ _) _) as [e|r3] eqn:H3.
  { apply scanRoles_inl in H3 as [Hn [msg ->]]. right. split; [tauto|by eexists]. }
  apply scanRoles_inr in H3 as D3. apply scanRoles_spec in H3. simpl.
  destruct (scanRoles _ true _ (selectUsergroupRepogroupRoles _ _ _) _) as [e|r4] eqn:H4.
  { apply scanRoles_inl in H4 as [Hn [msg ->]]. right. split; [tauto|by eexists]. }
  apply scanRoles_inr in H4 as D4. apply scanRoles_spec in H4. simpl.
  left. split; [done|]. subst r1 r2 r3 r4. simpl. by rewrite <- !(assoc_L (++)).
Qed.

End aggregator_props.

(** * Facts about gathered requests *)

Module gather_props.
Import dblogic dblogic_props trace_props aggregator_props.

(** The request [GatherRequestDetails] builds from the rows it read. *)
Definition requestOf (db : Database) (userId : Z) (username reponame : string)
    (repoId : Z) : RequestDetails :=
  let usergroupRels := scanUsergroups userId (selectUsergroups db userId) [] [] in
  let repogroupRels :=
    (λ g, {| RepogroupId := g; RepoId := repoId |}) <$> selectRepogroups db repoId in
  {| reqUserId := userId;
     reqUsername := username;
     reqUsergroupRelationships := usergroupRels;
     reqRepoId := repoId;
     reqRepoName := reponame;
     reqRepogroupRels := repogroupRels;
     reqAssignedRoles :=
       assignmentsOf db userId repoId
         (bindParams (usergroupIdsOf usergroupRels))
         (bindParams (repogroupIdsOf repogroupRels)) |}.

(** Every role the store grants to a relevant principal on a relevant
    resource has a label that decodes for the kind of the resource. *)
Definition grantsDecode (db : Database) (userId repoId : Z) : Prop :=
  ∀ p r label, granted db p r label → relevant db userId repoId p r →
               decodes (isRepogroupOf r) label.

Lemma elem_of_repogroupIds_of_repo db repoId rg :
  rg ∈ bindParams (repogroupIdsOf
         ((λ g, {| RepogroupId := g; RepoId := repoId |}) <$> selectRepogroups db repoId)) ↔
  inRepogroup db repoId rg.
Proof.
  rewrite elem_of_repogroupIds. unfold inRepogroup, selectRepogroups. split.
  - intros (rel & Hin & <-). apply list_elem_of_fmap in Hin as (g & -> & Hg).
    apply list_elem_of_fmap in Hg as (m & -> & Hm).
    apply list_elem_of_filter in Hm as [? ?]. by exists m.
  - intros (m & Hm & Hrepo & <-).
    exists {| RepogroupId := rgm_repogroup_id m; RepoId := repoId |}. split; [|done].
    apply list_elem_of_fmap. eexists. split; [done|].
    apply list_elem_of_fmap. exists m. split; [done|]. by apply list_elem_of_filter.
Qed.

Lemma labelsDecode_grantsDecode db userId repoId :
  labelsDecode db userId repoId
    (bindParams (usergroupIdsOf (scanUsergroups userId (selectUsergroups db userId) [] [])))
    (bindParams (repogroupIdsOf
       ((λ g, {| RepogroupId := g; RepoId := repoId |}) <$> selectRepogroups db repoId))) ↔
  grantsDecode db userId repoId.
Proof.
  unfold labelsDecode, grantsDecode, relevant. rewrite !Forall_forall. split.
  - intros (D1 & D2 & D3 & D4) [u|g] [rp|rg] label Hgr [Hp Hr]; simpl.
    + subst. by apply D1, elem_of_selectUserRepoRoles.
    + subst. apply (D3 (rg, label)), elem_of_selectUserRepogroupRoles.
      split; [|done]. by apply elem_of_repogroupIds_of_repo.
    + subst. apply (D2 (g, label)), elem_of_selectUsergroupRepoRoles.
      split; [|done]. by apply closure_groups.
    + apply (D4 (rg, g, label)), elem_of_selectUsergroupRepogroupRoles.
      split_and!; [by apply closure_groups|by apply elem_of_repogroupIds_of_repo|done].
  - intros Hall. split_and!.
    + intros label Hin%elem_of_selectUserRepoRoles. by apply (Hall _ _ _ Hin).
    + intros [g label] [Hg Hin]%elem_of_selectUsergroupRepoRoles.
      apply (Hall _ _ _ Hin). split; [|done]. by apply closure_groups.
    + intros [rg label] [Hg Hin]%elem_of_selectUserRepogroupRoles.
      apply (Hall _ _ _ Hin). split; [done|]. by apply elem_of_repogroupIds_of_repo.
    + intros [[rg g] label] (Hg & Hrg & Hin)%elem_of_selectUsergroupRepogroupRoles.
      apply (Hall _ _ _ Hin).
      split; [by apply closure_groups|by apply elem_of_repogroupIds_of_repo].
Qed.

(** [GatherRequestDetails] when the driver does not fail. *)
Lemma GatherRequestDetails_no_driver_fault userId reponame dbInstance log :
  (∀ st, driverFault dbInstance st = None) →
  let db := sqliteDb dbInstance in
  let result := (GatherRequestDetails userId reponame dbInstance log).1 in
  match selectUser db userId, selectRepo db reponame with
  | [], _ =>
      result = inl (Errorf "error from checkUserInDb"
                      (Errorf "error querying for user from DB" ErrNoRows))
  | _ :: _, [] =>
      result = inl (Errorf "error from checkRepoInDb"
                      (Errorf "error querying for repo from DB" ErrNoRows))
  | (_, username) :: _, (repoId, _) :: _ =>
      (grantsDecode db userId repoId ∧
       result = inr (requestOf db userId username reponame repoId)) ∨
      (¬ grantsDecode db userId repoId ∧
       ∃ msg, result = inl (Errorf "error from getAssignedRoles"
                              (Errorf "error when mapping db role to enum"
                                 (ErrorString msg))))
  end.
Proof.
  intros Hf db result. subst db result.
  unfold GatherRequestDetails, checkUserInDb, getUsergroupsRecursive, checkRepoInDb,
    getRepogroupRels, bindT, exec, retT. simpl. rewrite !Hf.
  destruct (selectUser (sqliteDb dbInstance) userId) as [|[? username] ?]; [done|].
  destruct (selectRepo (sqliteDb dbInstance) reponame) as [|[repoId name] rest]; [done|].
  match goal with |- context [getAssignedRoles ?u ?r ?ug ?rg ?tx ?l] =>
    pose proof (getAssignedRoles_no_driver_fault u r ug rg tx l
                  ltac:(repeat (constructor; [apply Hf|]); constructor)) as Hroles;
    destruct (getAssignedRoles u r ug rg tx l) as [res l'] end.
  simpl in Hroles. rewrite labelsDecode_grantsDecode in Hroles.
  destruct Hroles as [[Hd ->]|[Hd [msg ->]]]; simpl.
  - by left.
  - right. split; [done|]. by eexists.
Qed.

(** What a successful [GatherRequestDetails] has read and issued. *)
Lemma GatherRequestDetails_success userId reponame dbInstance log reqDetails log' :
  GatherRequestDetails userId reponame dbInstance log = (inr reqDetails, log') →
  let db := sqliteDb dbInstance in
  ∃ uid username users repoId name repos,
    selectUser db userId = (uid, username) :: users ∧
    selectRepo db reponame = (repoId, name) :: repos ∧
    grantsDecode db userId repoId ∧
    reqDetails = requestOf db userId username reponame repoId ∧
    log' = log ++ BeginTx :: queries ++ [Commit].
Proof.
  intros HG db. subst db. revert HG.
  unfold GatherRequestDetails, checkUserInDb, getUsergroupsRecursive, checkRepoInDb,
    getRepogroupRels, bindT, exec, retT. simpl.
  destruct (driverFault dbInstance BeginTx) eqn:Hb; [done|].
  destruct (driverFault dbInstance SelectUser); [done|].
  destruct (selectUser (sqliteDb dbInstance) userId) as [|[uid username] users]; [done|].
  destruct (driverFault dbInstance SelectUsergroups); [done|].
  destruct (driverFault dbInstance SelectRepo); [done|].
  destruct (selectRepo (sqliteDb dbInstance) reponame) as [|[repoId name] repos]; [done|].
  destruct (driverFault dbInstance SelectRepogroups); [done|].
  match goal with |- context [getAssignedRoles ?u ?r ?ug ?rg ?tx ?l] =>
    pose proof (getAssignedRoles_trace u r ug rg tx l) as Htrace;
    destruct (getAssignedRoles u r ug rg tx l) as [[?|roles] l5] eqn:H5; [done|];
    assert (H5' : (getAssignedRoles u r ug rg tx l).1 = inr roles) by (by rewrite H5);
    pose proof (getAssignedRoles_no_fault _ _ _ _ _ _ _ H5') as Hnf;
    pose proof (getAssignedRoles_no_driver_fault u r ug rg tx l Hnf) as Hroles
  end.
  simpl in Hroles. rewrite H5 in Hroles. simpl in Hroles.
  rewrite labelsDecode_grantsDecode in Hroles.
  destruct Hroles as [[Hd [= ->]]|[_ [? [=]]]].
  destruct Htrace as [[? [= _ ->]]|(? & ? & _ & [=])].
  simpl. destruct (driverFault dbInstance Commit); [done|]. intros [= <- <-].
  exists uid, username, users, repoId, name, repos. split_and!; try done.
  by rewrite <- !(assoc_L (++)).
Qed.

Lemma selectUser_cons db userId uid username users :
  selectUser db userId = (uid, username) :: users →
  uid = userId ∧ ∃ u, u ∈ Users db ∧ Users_id u = userId ∧ Users_username u = username.
Proof.
  unfold selectUser. intros Hsel.
  assert (Hin : (uid, username) ∈ (λ u, (Users_id u, Users_username u)) <$>
                  filter (λ u, Users_id u = userId) (Users db)).
  { rewrite Hsel. by left. }
  apply list_elem_of_fmap in Hin as (u & [= -> ->] & [Hid Hu]%list_elem_of_filter).
  split; [done|]. by exists u.
Qed.

Lemma selectUser_nil db userId :
  selectUser db userId = [] ↔ ¬ ∃ u, u ∈ Users db ∧ Users_id u = userId.
Proof.
  unfold selectUser. split.
  - intros Hnil%fmap_nil_inv (u & Hu & Hid).
    assert (Hin : u ∈ filter (λ u, Users_id u = userId) (Users db))
      by (by apply list_elem_of_filter).
    rewrite Hnil in Hin. by apply elem_of_nil in Hin.
  - intros Hn. destruct (filter _ _) as [|u l] eqn:Hfil; [done|]. exfalso. apply Hn.
    assert (Hin : u ∈ filter (λ u, Users_id u = userId) (Users db))
      by (rewrite Hfil; by left).
    apply list_elem_of_filter in Hin as [? ?]. by exists u.
Qed.

Lemma selectRepo_cons db reponame repoId name repos :
  selectRepo db reponame = (repoId, name) :: repos →
  name = reponame ∧ ∃ r, r ∈ Repos db ∧ Repos_reponame r = reponame ∧ Repos_id r = repoId.
Proof.
  unfold selectRepo. intros Hsel.
  assert (Hin : (repoId, name) ∈ (λ r, (Repos_id r, Repos_reponame r)) <$>
                  filter (λ r, Repos_reponame r = reponame) (Repos db)).
  { rewrite Hsel. by left. }
  apply list_elem_of_fmap in Hin as (r & [= -> ->] & [Hname Hr]%list_elem_of_filter).
  split; [done|]. by exists r.
Qed.

Lemma selectRepo_nil db reponame :
  selectRepo db reponame = [] ↔ ¬ ∃ r, r ∈ Repos db ∧ Repos_reponame r = reponame.
Proof.
  unfold selectRepo. split.
  - intros Hnil%fmap_nil_inv (r & Hr & Hname).
    assert (Hin : r ∈ filter (λ r, Repos_reponame r = reponame) (Repos db))
      by (by apply list_elem_of_filter).
    rewrite Hnil in Hin. by apply elem_of_nil in Hin.
  - intros Hn. destruct (filter _ _) as [|r l] eqn:Hfil; [done|]. exfalso. apply Hn.
    assert (Hin : r ∈ filter (λ r, Repos_reponame r = reponame) (Repos db))
      by (rewrite Hfil; by left).
    apply list_elem_of_filter in Hin as [? ?]. by exists r.
Qed.

(** ** The relationships of a request *)

(** The nesting records of a request, and the usergroups they reach from
    the membership records of a user. *)
Definition reqNests (rels : UsergroupRelationships) (p c : Z) : Prop :=
  ∃ e, e ∈ UserGroupInGroups rels ∧ ParentUsergroupId e = p ∧ ChildUsergroupId e = c.

Definition reqReachable (rels : UsergroupRelationships) (u g : Z) : Prop :=
  ∃ uig, uig ∈ UserInGroups rels ∧ UserId uig = u ∧ rtc (reqNests rels) (UsergroupId uig) g.

Lemma closure_memberships db userId uig :
  uig ∈ UserInGroups (scanUsergroups userId (selectUsergroups db userId) [] []) ↔
  UserId uig = userId ∧ member db userId (UsergroupId uig).
Proof.
  destruct uig as [u g]. rewrite scanUsergroups_spec. simpl. rewrite list_elem_of_omap. split.
  - intros ([p [c|]] & Hin%elem_of_selectUsergroups & Hof);
      unfold directOf in Hof; simpl in Hof; [done|]. by injection Hof as <- <-.
  - intros [-> Hm]. exists (g, None). split; [|done]. by apply elem_of_selectUsergroups.
Qed.

Lemma closure_nestings db userId e :
  e ∈ UserGroupInGroups (scanUsergroups userId (selectUsergroups db userId) [] []) ↔
  nests db (ParentUsergroupId e) (ChildUsergroupId e) ∧
  reachable db userId (ParentUsergroupId e).
Proof.
  destruct e as [p c]. rewrite scanUsergroups_spec. simpl. rewrite list_elem_of_omap. split.
  - intros ([p' [c'|]] & Hin%elem_of_selectUsergroups & Hof);
      unfold nestedOf in Hof; simpl in Hof; [|done]. by injection Hof as <- <-.
  - intros Hv. exists (p, Some c). split; [|done]. by apply elem_of_selectUsergroups.
Qed.

Lemma reqReachable_closure db userId g :
  reqReachable (scanUsergroups userId (selectUsergroups db userId) [] []) userId g ↔
  reachable db userId g.
Proof.
  set (rels := scanUsergroups userId (selectUsergroups db userId) [] []). split.
  - intros (uig & [_ Hm]%closure_memberships & _ & Hrtc). exists (UsergroupId uig).
    split; [done|]. eapply rtc_subrel; [|done].
    by intros p c (e & [? _]%closure_nestings & <- & <-).
  - intros (d & Hm & Hrtc). exists {| UserId := userId; UsergroupId := d |}.
    split; [by apply closure_memberships|]. split; [done|]. simpl.
    apply (rtc_ind_r (R:=nests db)
             (λ g, rtc (reqNests rels) d g ∧ rtc (nests db) d g) d); [done| |exact Hrtc].
    intros p c _ Hn [IH1 IH2]. split; [|by eapply rtc_r].
    eapply rtc_r; [done|].
    exists {| ParentUsergroupId := p; ChildUsergroupId := c |}. split; [|done].
    apply closure_nestings. simpl. split; [done|]. by exists d.
Qed.

(** The membership of user 4 in usergroup 1 and the nesting of usergroup
    2 under it, each stored twice. *)
Definition repeatedRowsDb : Database := {|
  Users := Users exampleDb;
  Repos := Repos exampleDb;
  UserGroup_membership_users :=
    UserGroup_membership_users exampleDb ++
    [ {| ugmu_id := 4; ugmu_usergroup_id := 1; ugmu_user_id := 4 |} ];
  UserGroup_membership_usergroups :=
    UserGroup_membership_usergroups exampleDb ++
    [ {| ugmg_id := 3; ugmg_usergroup_id := 1; ugmg_child_usergroup_id := 2 |} ];
  RepoGroup_membership := RepoGroup_membership exampleDb;
  repo_roles_enum := repo_roles_enum exampleDb;
  repogroup_roles_enum := repogroup_roles_enum exampleDb;
  Repo_Roles_membership_Users := Repo_Roles_membership_Users exampleDb;
  Repo_Roles_membership_UserGroups := Repo_Roles_membership_UserGroups exampleDb;
  RepoGroup_Roles_membership_Users := RepoGroup_Roles_membership_Users exampleDb;
  RepoGroup_Roles_membership_Usergroup := RepoGroup_Roles_membership_Usergroup exampleDb
|}.

Lemma NoDup_omap_inj {A B : Type} (f : A → option B) (l : list A) :
  (∀ x y z, f x = Some z → f y = Some z → x = y) → NoDup l → NoDup (omap f l).
Proof.
  intros Hinj. induction 1 as [|x l Hx Hl IH]; csimpl; [constructor|].
  destruct (f x) as [z|] eqn:Hfx; [|done]. constructor; [|done].
  intros (y & Hy & Hfy)%list_elem_of_omap. by rewrite (Hinj x y z Hfx Hfy) in Hx.
Qed.

End gather_props.

(** * Facts about the rules of the authorizer text *)

Module rules_props.
Import biscuit authz authz_props.

(** ** The namespaced symbols *)

Lemma namespaceUser_inj u u' : namespaceUser u = namespaceUser u' → u = u'.
Proof. intros H%namespaceAuthz_inj. by apply (inj pretty). Qed.

Lemma namespaceUG_inj g g' : namespaceUG g = namespaceUG g' → g = g'.
Proof. intros H%namespaceAuthz_inj. by apply (inj pretty). Qed.

Lemma namespaceRepo_inj r r' : namespaceRepo r = namespaceRepo r' → r = r'.
Proof. intros H%namespaceAuthz_inj. by apply (inj pretty). Qed.

Lemma namespaceRG_inj g g' : namespaceRG g = namespaceRG g' → g = g'.
Proof. intros H%namespaceAuthz_inj. by apply (inj pretty). Qed.

Lemma namespaceUser_UG u g : namespaceUser u ≠ namespaceUG g.
Proof. cbv -[pretty]. congruence. Qed.

Lemma namespaceRepo_RG r g : namespaceRepo r ≠ namespaceRG g.
Proof. cbv -[pretty]. congruence. Qed.

Lemma prefix_append (p s : string) : String.prefix p (p +:+ s) = true.
Proof.
  induction p as [|c p IH]; [by destruct s|].
  change (String c p +:+ s) with (String c (p +:+ s)). cbn [String.prefix].
  by destruct (ascii_dec c c).
Qed.

Lemma prefix_userid_User u : String.prefix "userid:" (namespaceUser u) = true.
Proof. apply (prefix_append "userid:" (pretty u)). Qed.

Lemma prefix_userid_UG g : String.prefix "userid:" (namespaceUG g) = false.
Proof. by cbv -[pretty]. Qed.

Lemma prefix_usergroupid_UG g : String.prefix "usergroupid:" (namespaceUG g) = true.
Proof. apply (prefix_append "usergroupid:" (pretty g)). Qed.

Lemma prefix_usergroupid_User u : String.prefix "usergroupid:" (namespaceUser u) = false.
Proof. by cbv -[pretty]. Qed.

(** ** The facts of the authorizer text *)

Lemma authzDetailsFor_fields reqDetails operation now d :
  authzDetailsFor reqDetails operation now = Returned d →
  UserID d = dblogic.reqUserId reqDetails ∧
  UserGroupRels d = copyUserGroupRels (dblogic.reqUsergroupRelationships reqDetails) ∧
  RepoID d = dblogic.reqRepoId reqDetails ∧
  RepogroupRels d = dblogic.reqRepogroupRels reqDetails ∧
  DateTime d = now.
Proof.
  unfold authzDetailsFor.
  destruct (operationActionStr operation) as [actionStr|]; [|done].
  destruct (roleFacts_loop _ _) as [ars|]; [|done].
  by intros [= <-].
Qed.

Lemma elem_of_authzFacts_user d x : fact_user x ∉ authzFacts d.
Proof.
  unfold authzFacts. rewrite !elem_of_app, !elem_of_cons, !list_elem_of_fmap, elem_of_nil.
  intros [(? & [=] & _)|[[[=]|[[=]|[]]]|[(? & [=] & _)|[(? & [=] & _)|[(? & [=] & _)
         |(? & [=] & _)]]]]].
Qed.

Lemma elem_of_authzFacts_operation d a r :
  fact_operation a r ∈ authzFacts d ↔
  a = namespaceAction (ActionStr d) ∧ r = namespaceRepo (RepoID d).
Proof.
  unfold authzFacts. rewrite !elem_of_app, !elem_of_cons, !list_elem_of_fmap, elem_of_nil.
  split.
  - intros [(? & [=] & _)|[[[= -> ->]|[[=]|[]]]|[(? & [=] & _)|[(? & [=] & _)|[(? & [=] & _)
           |(? & [=] & _)]]]]]. done.
  - intros [-> ->]. right. left. by left.
Qed.

Lemma elem_of_authzFacts_usergroup d g m :
  fact_usergroup g m ∈ authzFacts d ↔
  (∃ uig, uig ∈ UserInGroups (UserGroupRels d) ∧
          g = namespaceUG (UsergroupId uig) ∧ m = namespaceUser (UserId uig)) ∨
  (∃ ug, ug ∈ UgsInUgs (UserGroupRels d) ∧
         g = namespaceUG (ParentUsergroupId ug) ∧ m = namespaceUG (ChildUsergroupId ug)).
Proof.
  unfold authzFacts. rewrite !elem_of_app, !elem_of_cons, !list_elem_of_fmap, elem_of_nil.
  split.
  - intros [(? & [=] & _)|[[[=]|[[=]|[]]]|[(uig & [= -> ->] & ?)|[(ug & [= -> ->] & ?)
           |[(? & [=] & _)|(? & [=] & _)]]]]]; [left|right]; eauto.
  - intros [(uig & ? & -> & ->)|(ug & ? & -> & ->)].
    + right. right. left. by exists uig.
    + right. right. right. left. by exists ug.
Qed.

Lemma elem_of_authzFacts_repogroup d g m :
  fact_repogroup g m ∈ authzFacts d ↔
  ∃ rel, rel ∈ RepogroupRels d ∧
         g = namespaceRG (dblogic.RepogroupId rel) ∧ m = namespaceRepo (dblogic.RepoId rel).
Proof.
  unfold authzFacts. rewrite !elem_of_app, !elem_of_cons, !list_elem_of_fmap, elem_of_nil.
  split.
  - intros [(? & [=] & _)|[[[=]|[[=]|[]]]|[(? & [=] & _)|[(? & [=] & _)
           |[(rel & [= -> ->] & ?)|(? & [=] & _)]]]]]. eauto.
  - intros (rel & ? & -> & ->). do 4 right. left. by exists rel.
Qed.

Lemma elem_of_authzFacts_role d x y ro :
  fact_role x y ro ∈ authzFacts d ↔
  ∃ ar, ar ∈ AssignedRoles d ∧
        x = UserNamespaced ar ∧ y = RepoNamespaced ar ∧ ro = Role ar.
Proof.
  unfold authzFacts. rewrite !elem_of_app, !elem_of_cons, !list_elem_of_fmap, elem_of_nil.
  split.
  - intros [(? & [=] & _)|[[[=]|[[=]|[]]]|[(? & [=] & _)|[(? & [=] & _)
           |[(? & [=] & _)|(ar & [= -> -> ->] & ?)]]]]]. eauto.
  - intros (ar & ? & -> & -> & ->). do 5 right. by exists ar.
Qed.

Lemma elem_of_copy_UserInGroups rels uig :
  uig ∈ UserInGroups (copyUserGroupRels rels) ↔
  ∃ x, x ∈ dblogic.UserInGroups rels ∧
       UsergroupId uig = dblogic.UsergroupId x ∧ UserId uig = dblogic.UserId x.
Proof.
  unfold copyUserGroupRels. simpl. rewrite list_elem_of_fmap. split.
  - intros (x & -> & ?). by exists x.
  - intros (x & ? & H1 & H2). exists x. split; [|done]. destruct uig. simpl in *. by subst.
Qed.

Lemma elem_of_copy_UgsInUgs rels ug :
  ug ∈ UgsInUgs (copyUserGroupRels rels) ↔
  ∃ x, x ∈ dblogic.UserGroupInGroups rels ∧
       ParentUsergroupId ug = dblogic.ParentUsergroupId x ∧
       ChildUsergroupId ug = dblogic.ChildUsergroupId x.
Proof.
  unfold copyUserGroupRels. simpl. rewrite list_elem_of_fmap. split.
  - intros (x & -> & ?). by exists x.
  - intros (x & ? & H1 & H2). exists x. split; [|done]. destruct ug. simpl in *. by subst.
Qed.

(** The rules of [user_authority] on the facts of a request derive, for
    the user of the token, the user itself and the usergroups its
    membership records reach through the nesting records. *)
Lemma user_authority_request rels d u x :
  UserGroupRels d = copyUserGroupRels rels →
  user_authority ([fact_user (namespaceUser u)] ++ authzFacts d) (namespaceUser u) x ↔
  x = namespaceUser u ∨ ∃ g, x = namespaceUG g ∧ gather_props.reqReachable rels u g.
Proof.
  intros Hrels. set (W := [fact_user (namespaceUser u)] ++ authzFacts d).
  assert (Hug : ∀ g m, fact_usergroup g m ∈ W ↔
            (∃ uig, uig ∈ dblogic.UserInGroups rels ∧
                    g = namespaceUG (dblogic.UsergroupId uig) ∧
                    m = namespaceUser (dblogic.UserId uig)) ∨
            (∃ e, e ∈ dblogic.UserGroupInGroups rels ∧
                  g = namespaceUG (dblogic.ParentUsergroupId e) ∧
                  m = namespaceUG (dblogic.ChildUsergroupId e))).
  { intros g m. unfold W. rewrite elem_of_app, list_elem_of_singleton.
    rewrite elem_of_authzFacts_usergroup, Hrels. split.
    - intros [[=]|[(uig & (y & ? & -> & ->)%elem_of_copy_UserInGroups & -> & ->)
                  |(ug & (y & ? & -> & ->)%elem_of_copy_UgsInUgs & -> & ->)]]; eauto.
    - intros [(y & ? & -> & ->)|(y & ? & -> & ->)]; right; [left|right].
      + exists {| UsergroupId := dblogic.UsergroupId y; UserId := dblogic.UserId y |}.
        split; [|done]. apply elem_of_copy_UserInGroups. by exists y.
      + exists {| ParentUsergroupId := dblogic.ParentUsergroupId y;
                  ChildUsergroupId := dblogic.ChildUsergroupId y |}.
        split; [|done]. apply elem_of_copy_UgsInUgs. by exists y. }
  split.
  - assert (Hsound : ∀ m y, user_authority W m y → m = namespaceUser u →
              y = namespaceUser u ∨ ∃ g, y = namespaceUG g ∧ gather_props.reqReachable rels u g);
      [|by eauto].
    intros m y Hua.
    induction Hua as [member Hfact|group member Hfact Hpre
                     |member group subgroup Hfact Hpre Hua IH]; intros ->.
    + by left.
    + right. apply Hug in Hfact as [(uig & Hin & -> & Heq)|(e & _ & _ & Heq)].
      * apply namespaceUser_inj in Heq. exists (dblogic.UsergroupId uig). split; [done|].
        by exists uig.
      * by apply namespaceUser_UG in Heq.
    + right. apply Hug in Hfact as [(uig & _ & _ & ->)|(e & Hin & -> & ->)].
      * by rewrite prefix_usergroupid_User in Hpre.
      * destruct (IH eq_refl) as [Heq|(g & Heq & (uig & Huig & Hu & Hrtc))].
        { symmetry in Heq. by apply namespaceUser_UG in Heq. }
        apply namespaceUG_inj in Heq as <-. exists (dblogic.ChildUsergroupId e).
        split; [done|]. exists uig. split_and!; [done|done|].
        eapply rtc_r; [done|]. by exists e.
  - assert (Huser : fact_user (namespaceUser u) ∈ W) by (apply elem_of_app; left; by left).
    intros [->|(g & -> & (uig & Huig & Hu & Hrtc))]; [by constructor|].
    apply (rtc_ind_r (R:=gather_props.reqNests rels)
             (λ g, user_authority W (namespaceUser u) (namespaceUG g))
             (dblogic.UsergroupId uig)); [| |exact Hrtc].
    + apply user_authority_member; [|apply prefix_userid_User].
      apply Hug. left. exists uig. by rewrite Hu.
    + intros p c _ (e & He & <- & <-) IH.
      apply (user_authority_subgroup W _ (namespaceUG (dblogic.ParentUsergroupId e)));
        [|apply prefix_usergroupid_UG|done].
      apply Hug. right. by exists e.
Qed.

(** The rules of [repo_authority] derive, for the repo of the operation,
    the repo itself and the repogroups of the relationships that name
    it. *)
Lemma repo_authority_request d user x :
  repo_authority ([fact_user user] ++ authzFacts d) (namespaceRepo (RepoID d)) x ↔
  x = namespaceRepo (RepoID d) ∨
  ∃ rel, rel ∈ RepogroupRels d ∧ dblogic.RepoId rel = RepoID d ∧
         x = namespaceRG (dblogic.RepogroupId rel).
Proof.
  set (W := [fact_user user] ++ authzFacts d). split.
  - intros Hra. remember (namespaceRepo (RepoID d)) as m eqn:Hm.
    destruct Hra as [m _|m group Hfact]; [by left|]. subst m. right.
    unfold W in Hfact. rewrite elem_of_app, list_elem_of_singleton in Hfact.
    destruct Hfact as [[=]|(rel & Hin & -> & Heq)%elem_of_authzFacts_repogroup].
    apply namespaceRepo_inj in Heq. by exists rel.
  - intros [->|(rel & Hin & Heq & ->)].
    + apply repo_authority_self. exists (namespaceAction (ActionStr d)).
      apply elem_of_app. right. by apply elem_of_authzFacts_operation.
    + apply repo_authority_group. apply elem_of_app. right.
      apply elem_of_authzFacts_repogroup. exists rel. by rewrite Heq.
Qed.

(** The principal and the resource of the role fact built for an
    assignment. *)
Lemma roleFact_namespaced p r label ar :
  roleFact (dblogic_props.assignmentOf p r label) = Returned ar →
  UserNamespaced ar =
    match p with
    | dblogic_props.User u => namespaceUser u
    | dblogic_props.Usergroup g => namespaceUG g
    end ∧
  RepoNamespaced ar =
    match r with
    | dblogic_props.Repo rp => namespaceRepo rp
    | dblogic_props.Repogroup rg => namespaceRG rg
    end.
Proof.
  unfold roleFact. destruct p, r; simpl; repeat case_decide; try done; by intros [= <-].
Qed.

End rules_props.

(** * Facts about the verdict on gathered requests *)

Module verdict_props.
Import biscuit authz_props dblogic_props decision_props gather_props rules_props.




End verdict_props.

(** * The properties of the design document *)

(** ** The closure resolver and the role-assignment aggregator *)

Section dblogic_claims.
Import dblogic dblogic_props.

(** C2. Decoding the label "owner" against a repogroup returns the error
    "repogroups cannot have owner roles" together with [UnknownRole],
    never [OwnerRole]. When one of the two repogroup queries of the
    aggregator returns a row labelled "owner", the aggregator returns an
    error and no list of assignments, so the row is not dropped; when no
    statement fails and every label read is one of owner, reader and
    writer, that error is the decoding error, wrapped. *)
Theorem owner_on_repogroup_is_an_error userId repoId usergroupRels repogroupRels sqlTx log :
  let db := snapshot sqlTx in
  let usergroupIds := bindParams (usergroupIdsOf usergroupRels) in
  let repogroupIds := bindParams (repogroupIdsOf repogroupRels) in
  let result := (getAssignedRoles userId repoId usergroupRels repogroupRels sqlTx log).1 in
  repoRoleStrToEnum "owner" true = (UnknownRole, Some errOwnerOnRepogroup) ∧
  (Exists (λ row, row.2 = "owner") (selectUserRepogroupRoles db userId repogroupIds) ∨
   Exists (λ row, row.2 = "owner")
     (selectUsergroupRepogroupRoles db usergroupIds repogroupIds) →
   (∃ err, result = inl err) ∧
   ((∀ st, fault sqlTx st = None) →
    Forall knownLabel (selectUserRepoRoles db repoId userId) →
    Forall (λ row, knownLabel row.2) (selectUsergroupRepoRoles db repoId usergroupIds) →
    Forall (λ row, knownLabel row.2) (selectUserRepogroupRoles db userId repogroupIds) →
    Forall (λ row, knownLabel row.2)
      (selectUsergroupRepogroupRoles db usergroupIds repogroupIds) →
    result = inl (Errorf "error when mapping db role to enum" errOwnerOnRepogroup))).
Proof.
  intros db usergroupIds repogroupIds result. split; [done|]. intros Howner. split.
  - destruct result as [err|roles] eqn:Hres; [eauto|]. exfalso.
    apply getAssignedRoles_inr in Hres as (_ & _ & H3 & H4).
    destruct Howner as [Hex|Hex]; apply Exists_exists in Hex as (row & Hrow & Hl).
    + eapply Forall_forall in H3; [|done]. rewrite Hl in H3. by apply not_decodes_owner in H3.
    + eapply Forall_forall in H4; [|done]. rewrite Hl in H4. by apply not_decodes_owner in H4.
  - intros Hf K1 K2 K3 K4. subst result db usergroupIds repogroupIds.
    unfold getAssignedRoles, bindT, exec, retT. simpl. rewrite !Hf.
    match goal with |- context [scanRoles ?f false ?a (selectUserRepoRoles _ _ _) ?acc] =>
      pose proof (scanRoles_knownLabel f false a _ acc K1) as S1 end.
    rewrite decide_False in S1 by (by intros [? _]). destruct S1 as [r1 ->]. simpl.
    match goal with |- context [scanRoles ?f false ?a (selectUsergroupRepoRoles _ _ _) ?acc] =>
      pose proof (scanRoles_knownLabel f false a _ acc K2) as S2 end.
    rewrite decide_False in S2 by (by intros [? _]). destruct S2 as [r2 ->]. simpl.
    match goal with |- context [scanRoles ?f true ?a (selectUserRepogroupRoles _ _ _) ?acc] =>
      pose proof (scanRoles_knownLabel f true a _ acc K3) as S3 end.
    case_decide as Hc3; [by rewrite S3|]. destruct S3 as [r3 ->]. simpl.
    match goal with
    |- context [scanRoles ?f true ?a (selectUsergroupRepogroupRoles _ _ _) ?acc] =>
      pose proof (scanRoles_knownLabel f true a _ acc K4) as S4 end.
    case_decide as Hc4; [by rewrite S4|]. exfalso.
    destruct Howner as [Hex|Hex]; [apply Hc3|apply Hc4]; done.
Qed.

(** C2 on a store where user 4 was granted the owner role on repogroup
    1: the aggregator returns the decoding error. *)
Lemma owner_on_repogroup_is_an_error_witness :
  (getAssignedRoles 4 3 {| UserInGroups := []; UserGroupInGroups := [] |}
     [ {| RepogroupId := 1; RepoId := 3 |} ]
     {| snapshot := ownerOnRepogroupDb; fault := noFault |} []).1 =
  inl (Errorf "error when mapping db role to enum" errOwnerOnRepogroup).
Proof.
  refine (proj2 (proj2 (owner_on_repogroup_is_an_error 4 3
    {| UserInGroups := []; UserGroupInGroups := [] |} [ {| RepogroupId := 1; RepoId := 3 |} ]
    {| snapshot := ownerOnRepogroupDb; fault := noFault |} []) _) _ _ _ _ _).
  - left. vm_compute. by left.
  - done.
  - vm_compute. constructor.
  - vm_compute. constructor.
  - vm_compute. constructor; [by left|constructor].
  - vm_compute. constructor.
Defined.

(** C4, as amended. For every user and every set of nesting rows, cyclic
    or not, the closure query returns (it is defined by well-founded
    recursion, so it is total): unless the driver fails,
    [getUsergroupsRecursive] returns relationships computed from rows
    that hold no duplicate, are at most as many as the membership and the
    nesting rows of the store, and are exactly the membership rows of
    the user and the nesting rows whose parent is reachable from one of
    the user's usergroups; the usergroups of the closure are exactly the
    reachable ones. The de-duplication is that of UNION, by row: no row
    is extracted twice. *)
Theorem closure_terminates userId sqlTx log :
  fault sqlTx SelectUsergroups = None →
  ∃ usergroupRels,
    getUsergroupsRecursive userId sqlTx log = (inr usergroupRels, log ++ [SelectUsergroups]) ∧
    NoDup (selectUsergroups (snapshot sqlTx) userId) ∧
    (length (selectUsergroups (snapshot sqlTx) userId) ≤
     length (UserGroup_membership_users (snapshot sqlTx)) +
     length (UserGroup_membership_usergroups (snapshot sqlTx)))%nat ∧
    (∀ r, r ∈ selectUsergroups (snapshot sqlTx) userId ↔ ugsValid (snapshot sqlTx) userId r) ∧
    (∀ g, g ∈ bindParams (usergroupIdsOf usergroupRels) ↔ reachable (snapshot sqlTx) userId g).
Proof.
  intros Hf. eexists. split; [by apply getUsergroupsRecursive_ok|]. split_and!.
  - apply NoDup_selectUsergroups.
  - apply length_selectUsergroups.
  - apply elem_of_selectUsergroups.
  - apply closure_groups.
Qed.

(** C4 on two usergroups nested under each other. *)
Lemma closure_terminates_witness :
  ∃ usergroupRels,
    getUsergroupsRecursive 1 {| snapshot := cycleDb; fault := noFault |} [] =
      (inr usergroupRels, [SelectUsergroups]) ∧
    NoDup (selectUsergroups cycleDb 1) ∧
    (length (selectUsergroups cycleDb 1) ≤ 1 + 2)%nat ∧
    (∀ r, r ∈ selectUsergroups cycleDb 1 ↔ ugsValid cycleDb 1 r) ∧
    (∀ g, g ∈ bindParams (usergroupIdsOf usergroupRels) ↔ reachable cycleDb 1 g).
Proof.
  exact (closure_terminates 1 {| snapshot := cycleDb; fault := noFault |} [] eq_refl).
Defined.

(** On the cycle the query returns three rows and the closure is the two
    usergroups of the cycle. *)
Example closure_on_cycle :
  selectUsergroups cycleDb 1 = [(1, None); (1, Some 2); (2, Some 1)] ∧
  dom (usergroupIdsOf (scanUsergroups 1 (selectUsergroups cycleDb 1) [] [])) = {[1; 2]}.
Proof. by vm_compute. Qed.

(** C4 as stated fails in its last part: a usergroup already visited is
    expanded again. On the example data, for user 4, the rows (1, NULL)
    and (1, 2) are both extracted, both are rows of usergroup 1, and the
    recursive select run on either fetches the nesting row (1, 2)
    again. *)
Lemma usergroup_joined_again :
  ∃ r1 r2 x,
    r1 ≠ r2 ∧
    r1 ∈ selectUsergroups exampleDb 4 ∧ r2 ∈ selectUsergroups exampleDb 4 ∧
    r1.1 = 1 ∧ r2.1 = 1 ∧
    x ∈ ugsRecursive exampleDb r1 ∧ x ∈ ugsRecursive exampleDb r2.
Proof.
  exists (1, None), (1, Some 2), (1, Some 2). vm_compute.
  split_and!; try done.
  - by left.
  - right. by left.
  - by left.
  - by left.
Qed.

(** C5. Adding a nesting row to the store can only grow the closure:
    unless the driver fails, the usergroups of the closure computed
    before are among those computed after, and so are the membership
    records and the nesting records. *)
Theorem closure_monotone m userId sqlTx log :
  fault sqlTx SelectUsergroups = None →
  ∃ before after,
    (getUsergroupsRecursive userId sqlTx log).1 = inr before ∧
    (getUsergroupsRecursive userId (withNesting m sqlTx) log).1 = inr after ∧
    bindParams (usergroupIdsOf before) ⊆ bindParams (usergroupIdsOf after) ∧
    UserInGroups before ⊆ UserInGroups after ∧
    UserGroupInGroups before ⊆ UserGroupInGroups after.
Proof.
  intros Hf. do 2 eexists.
  rewrite !getUsergroupsRecursive_ok by done. simpl. split_and!; [done|done|..].
  - intros g Hg%closure_groups. by apply closure_groups, reachable_addNesting.
  - rewrite !scanUsergroups_spec. simpl. intros uig Huig.
    apply list_elem_of_omap in Huig as ([p c] & Hr%elem_of_selectUsergroups & Hof).
    apply list_elem_of_omap. exists (p, c). split; [|done].
    apply elem_of_selectUsergroups. unfold directOf in Hof. simpl in Hof.
    destruct c; [done|]. done.
  - rewrite !scanUsergroups_spec. simpl. intros e He.
    apply list_elem_of_omap in He as ([p c] & Hr%elem_of_selectUsergroups & Hof).
    apply list_elem_of_omap. exists (p, c). split; [|done].
    apply elem_of_selectUsergroups. unfold nestedOf in Hof. simpl in Hof.
    destruct c as [c|]; [|done]. destruct Hr as [(m' & Hm' & ? & ?) Hreach]. split.
    + exists m'. split; [|done]. simpl. apply elem_of_app. by left.
    + by apply reachable_addNesting.
Qed.

(** C5 for Tony (5) on the example data, with usergroup 1 nested under
    usergroup 3. *)
Lemma closure_monotone_witness :
  ∃ before after,
    (getUsergroupsRecursive 5 {| snapshot := exampleDb; fault := noFault |} []).1 = inr before ∧
    (getUsergroupsRecursive 5
       (withNesting {| ugmg_id := 3; ugmg_usergroup_id := 3; ugmg_child_usergroup_id := 1 |}
          {| snapshot := exampleDb; fault := noFault |}) []).1 = inr after ∧
    bindParams (usergroupIdsOf before) ⊆ bindParams (usergroupIdsOf after) ∧
    UserInGroups before ⊆ UserInGroups after ∧
    UserGroupInGroups before ⊆ UserGroupInGroups after.
Proof.
  exact (closure_monotone {| ugmg_id := 3; ugmg_usergroup_id := 3; ugmg_child_usergroup_id := 1 |}
           5 {| snapshot := exampleDb; fault := noFault |} [] eq_refl).
Defined.

(** Tony is in usergroup 3 alone; once usergroup 1 is nested under it, the
    closure holds 1, 2 and 3. *)
Example closure_grows :
  dom (usergroupIdsOf (scanUsergroups 5 (selectUsergroups exampleDb 5) [] [])) = {[3]} ∧
  dom (usergroupIdsOf (scanUsergroups 5
    (selectUsergroups
       (addNesting {| ugmg_id := 3; ugmg_usergroup_id := 3; ugmg_child_usergroup_id := 1 |}
          exampleDb) 5) [] [])) = {[1; 2; 3]}.
Proof. by vm_compute. Qed.

(** C6, as amended. When the user exists, the repo name does not, and
    the driver does not fail, the request fails with the no-rows error
    of [checkRepoInDb], wrapped; the user lookup and the closure query
    have been issued before the repo lookup, the repogroup and role
    lookups are not issued, and the transaction is rolled back. *)
Theorem missing_repo_after_closure userId reponame dbInstance log :
  driverFault dbInstance BeginTx = None →
  driverFault dbInstance SelectUser = None →
  driverFault dbInstance SelectUsergroups = None →
  driverFault dbInstance SelectRepo = None →
  selectUser (sqliteDb dbInstance) userId ≠ [] →
  selectRepo (sqliteDb dbInstance) reponame = [] →
  GatherRequestDetails userId reponame dbInstance log =
  (inl (Errorf "error from checkRepoInDb"
          (Errorf "error querying for repo from DB" ErrNoRows)),
   log ++ [BeginTx; SelectUser; SelectUsergroups; SelectRepo; Rollback]).
Proof.
  intros Hb Hu Hg Hr Huser Hrepo.
  unfold GatherRequestDetails, checkUserInDb, getUsergroupsRecursive, checkRepoInDb,
    bindT, exec, retT. simpl.
  rewrite Hb, Hu, Hg, Hr, Hrepo.
  destruct (selectUser (sqliteDb dbInstance) userId) as [|[? ?] ?]; [done|].
  by rewrite <- !(assoc_L (++)).
Qed.

(** C6 for Liam (4) and a repo called Zulu, on the example data. *)
Lemma missing_repo_after_closure_witness :
  GatherRequestDetails 4 "Zulu" exampleInstance [] =
  (inl (Errorf "error from checkRepoInDb"
          (Errorf "error querying for repo from DB" ErrNoRows)),
   [BeginTx; SelectUser; SelectUsergroups; SelectRepo; Rollback]).
Proof.
  exact (missing_repo_after_closure 4 "Zulu" exampleInstance []
           eq_refl eq_refl eq_refl eq_refl ltac:(by vm_compute) eq_refl).
Defined.

(** C6 as stated fails: no repo of the example data is called Zulu, and
    the closure query is among the statements issued for the request of
    user 4 on it, before the repo lookup. *)
Lemma closure_computed_for_missing_repo :
  selectRepo exampleDb "Zulu" = [] ∧
  SelectUsergroups ∈ (GatherRequestDetails 4 "Zulu" exampleInstance []).2 ∧
  (GatherRequestDetails 4 "Zulu" exampleInstance []).2 =
    [BeginTx; SelectUser; SelectUsergroups; SelectRepo; Rollback].
Proof. vm_compute. split_and!; [done| |done]. right. right. by left. Qed.

(** C8. The usergroup ids and the repogroup ids bound to the [IN] lists
    of the role queries hold no duplicate, whatever the closure and the
    repogroup memberships: they are the keys of a map. The usergroup ids
    are the usergroups of the membership records and the children of the
    nesting records; the repogroup ids are those of the repogroup
    memberships; there is one [?] per id. *)
Theorem in_lists_have_no_duplicates usergroupRels repogroupRels :
  NoDup (bindParams (usergroupIdsOf usergroupRels)) ∧
  NoDup (bindParams (repogroupIdsOf repogroupRels)) ∧
  (∀ g, g ∈ bindParams (usergroupIdsOf usergroupRels) ↔
        (∃ uig, uig ∈ UserInGroups usergroupRels ∧ UsergroupId uig = g) ∨
        (∃ e, e ∈ UserGroupInGroups usergroupRels ∧ ChildUsergroupId e = g)) ∧
  (∀ g, g ∈ bindParams (repogroupIdsOf repogroupRels) ↔
        ∃ rel, rel ∈ repogroupRels ∧ RepogroupId rel = g) ∧
  length (bindList (usergroupIdsOf usergroupRels)) =
    length (bindParams (usergroupIdsOf usergroupRels)) ∧
  length (bindList (repogroupIdsOf repogroupRels)) =
    length (bindParams (repogroupIdsOf repogroupRels)).
Proof.
  split_and!.
  - apply NoDup_bindParams.
  - apply NoDup_bindParams.
  - apply elem_of_usergroupIds.
  - apply elem_of_repogroupIds.
  - unfold bindList, bindParams. by rewrite !length_fmap.
  - unfold bindList, bindParams. by rewrite !length_fmap.
Qed.

(** Usergroup 3, a direct membership that is also reached through two
    nesting paths, is bound once. *)
Example diamond_bound_once :
  length (bindParams (usergroupIdsOf
    {| UserInGroups := [ {| UserId := 7; UsergroupId := 1 |};
                         {| UserId := 7; UsergroupId := 3 |} ];
       UserGroupInGroups :=
         [ {| ParentUsergroupId := 1; ChildUsergroupId := 2 |};
           {| ParentUsergroupId := 1; ChildUsergroupId := 3 |};
           {| ParentUsergroupId := 2; ChildUsergroupId := 3 |} ] |})) = 3%nat.
Proof. by vm_compute. Qed.

(** C10. The result of [getUsergroupsRecursive] is the partition of the
    rows of the query by the NULL-ness of the child column: the
    membership records are the rows with a NULL child, in order, each
    with the queried user as [UserId]; the nesting records are the rows
    with a child, in order, each pairing the parent with that child; and
    the two lists together have as many records as there are rows, so no
    row is in both. *)
Theorem closure_partition userId sqlTx log :
  fault sqlTx SelectUsergroups = None →
  ∃ usergroupRels,
    (getUsergroupsRecursive userId sqlTx log).1 = inr usergroupRels ∧
    let sqlRows := selectUsergroups (snapshot sqlTx) userId in
    UserInGroups usergroupRels = omap (directOf userId) sqlRows ∧
    UserGroupInGroups usergroupRels = omap nestedOf sqlRows ∧
    (∀ uig, uig ∈ UserInGroups usergroupRels ↔
            UserId uig = userId ∧ (UsergroupId uig, None) ∈ sqlRows) ∧
    (∀ e, e ∈ UserGroupInGroups usergroupRels ↔
          (ParentUsergroupId e, Some (ChildUsergroupId e)) ∈ sqlRows) ∧
    (length (UserInGroups usergroupRels) + length (UserGroupInGroups usergroupRels) =
     length sqlRows)%nat.
Proof.
  intros Hf. eexists. rewrite getUsergroupsRecursive_ok by done. split; [done|].
  rewrite scanUsergroups_spec. simpl. split_and!; [done|done|..].
  - intros [u g]. rewrite list_elem_of_omap. simpl. split.
    + intros ([p [c|]] & Hin & Hof); unfold directOf in Hof; simpl in Hof; [done|].
      by injection Hof as <- <-.
    + intros [-> Hin]. by exists (g, None).
  - intros [p c]. rewrite list_elem_of_omap. simpl. split.
    + intros ([p' [c'|]] & Hin & Hof); unfold nestedOf in Hof; simpl in Hof; [|done].
      by injection Hof as <- <-.
    + intros Hin. by exists (p, Some c).
  - apply length_partition.
Qed.

(** C10 for Liam (4) on the example data. *)
Lemma closure_partition_witness :
  ∃ usergroupRels,
    (getUsergroupsRecursive 4 {| snapshot := exampleDb; fault := noFault |} []).1 =
      inr usergroupRels ∧
    let sqlRows := selectUsergroups exampleDb 4 in
    UserInGroups usergroupRels = omap (directOf 4) sqlRows ∧
    UserGroupInGroups usergroupRels = omap nestedOf sqlRows ∧
    (∀ uig, uig ∈ UserInGroups usergroupRels ↔
            UserId uig = 4 ∧ (UsergroupId uig, None) ∈ sqlRows) ∧
    (∀ e, e ∈ UserGroupInGroups usergroupRels ↔
          (ParentUsergroupId e, Some (ChildUsergroupId e)) ∈ sqlRows) ∧
    (length (UserInGroups usergroupRels) + length (UserGroupInGroups usergroupRels) =
     length sqlRows)%nat.
Proof.
  exact (closure_partition 4 {| snapshot := exampleDb; fault := noFault |} [] eq_refl).
Defined.

End dblogic_claims.

(** ** The decision engine *)

Section authz_claims.
Import biscuit authz authz_props.

(** The requests of the examples are what [GatherRequestDetails] returns
    on the example data, and the tokens what [IssueToken] issues. *)
Example example_requests :
  (dblogic.GatherRequestDetails 4 "Charlie" dblogic.exampleInstance []).1 = inr liamCharlie ∧
  (dblogic.GatherRequestDetails 5 "Bravo" dblogic.exampleInstance []).1 = inr tonyBravo ∧
  IssueToken exampleIssuer 4 = inr (issued 4) ∧
  IssueToken exampleIssuer 5 = inr (issued 5).
Proof. by vm_compute. Qed.





(** C9. The role to action table maps owner to membership, write and
    read, writer to write and read, and reader to read. It is the table
    of the struct literal, it is unchanged when [CheckAuthz] has filled
    in the other fields, and it is handed to the evaluator as three
    [repo_role_actions] facts under the namespaces role and action.
    Read as a relation between roles and operations: owner permits the
    three operations, writer permits write and read, reader permits
    read, and nothing else is permitted to them. *)
Theorem role_action_table reqDetails operation now :
  repoRoleActionsTable =
    [ {| RoleName := "owner"; RoleAllowedActions := ["membership"; "write"; "read"] |};
      {| RoleName := "writer"; RoleAllowedActions := ["write"; "read"] |};
      {| RoleName := "reader"; RoleAllowedActions := ["read"] |} ] ∧
  RepoRoleActions (authzDetailsLiteral reqDetails now) = repoRoleActionsTable ∧
  match authzDetailsFor reqDetails operation now with
  | Returned d =>
      RepoRoleActions d = repoRoleActionsTable ∧
      repoRoleActionsFacts (authzFacts d) =
        [ ("role:owner", ["action:membership"; "action:write"; "action:read"]);
          ("role:writer", ["action:write"; "action:read"]);
          ("role:reader", ["action:read"]) ]
  | Fatal _ => True
  end ∧
  (permits dblogic.OwnerRole operation ↔
   operation = Membership ∨ operation = Write ∨ operation = Read) ∧
  (permits dblogic.WriterRole operation ↔ operation = Write ∨ operation = Read) ∧
  (permits dblogic.ReaderRole operation ↔ operation = Read).
Proof.
  split; [done|]. split; [done|]. split; [|apply permits_table].
  destruct (authzDetailsFor reqDetails operation now) as [d|msg] eqn:Hd; [|done].
  apply authzDetailsFor_Returned in Hd as (_ & Htable & _). split; [done|].
  by rewrite repoRoleActionsFacts_authzFacts, Htable.
Qed.



Example foreign_assignment_allows :
  CheckAuthz (issued 4) 7 foreignAssignment Write exampleNow = Returned (true, None).
Proof. by vm_compute. Qed.

End authz_claims.

(** ** The decision, from the store to the verdict *)

Section decision_claims.
Import biscuit authz_props dblogic_props decision_props.



End decision_claims.

(** * Further properties of the code *)

(** ** Gathering a request *)

Section gather_extras.
Import dblogic dblogic_props trace_props aggregator_props gather_props.

(** X2. Every run of [GatherRequestDetails] begins one transaction and,
    unless [BeginTx] itself fails, ends it exactly once: with [Commit]
    after all eight queries have been issued in the order of the code, or
    with [Rollback] right after the first query that failed. A request is
    returned only after [Commit] has succeeded; a failed [Commit] is
    reported and not followed by a [Rollback]. *)
Theorem transaction_is_ended userId reponame dbInstance log :
  ∃ res issued,
    GatherRequestDetails userId reponame dbInstance log = (res, log ++ BeginTx :: issued) ∧
    match driverFault dbInstance BeginTx with
    | Some err => res = inl (Errorf "error when making Tx" err) ∧ issued = []
    | None =>
        (∃ reqDetails,
           res = inr reqDetails ∧ driverFault dbInstance Commit = None ∧
           issued = queries ++ [Commit]) ∨
        (∃ err,
           res = inl (Errorf "error when cleaning up sqlite Tx" err) ∧
           driverFault dbInstance Commit = Some err ∧
           issued = queries ++ [Commit]) ∨
        (∃ err n,
           res = inl err ∧ (1 ≤ n ≤ 8)%nat ∧
           issued = take n queries ++ [Rollback])
    end.
Proof.
  unfold GatherRequestDetails. unfold bindT at 1. unfold exec at 1. cbv beta iota zeta.
  destruct (driverFault dbInstance BeginTx) as [err|] eqn:Hb.
  { by eexists _, []. }
  set (sqlTx := {| snapshot := sqliteDb dbInstance; fault := driverFault dbInstance |}).
  unfold bindT at 1. cbv beta.
  destruct (checkUserInDb userId sqlTx (log ++ [BeginTx])) as [[e|username] l1] eqn:H1;
    unfold checkUserInDb, bindT, exec, retT in H1; simpl in H1;
    injection H1 as H1 <-.
  { eexists _, _. split; [unfold bindT, exec, retT; by rewrite <- !(assoc_L (++))|].
    right. right. eexists _, 1%nat. split_and!; [done|lia|lia|done]. }
  unfold bindT at 1. cbv beta.
  destruct (getUsergroupsRecursive userId sqlTx _) as [[e|usergroupRels] l2] eqn:H2;
    unfold getUsergroupsRecursive, bindT, exec, retT in H2; simpl in H2;
    injection H2 as H2 <-.
  { eexists _, _. split; [unfold bindT, exec, retT; by rewrite <- !(assoc_L (++))|].
    right. right. eexists _, 2%nat. split_and!; [done|lia|lia|done]. }
  unfold bindT at 1. cbv beta.
  destruct (checkRepoInDb reponame sqlTx _) as [[e|repoId] l3] eqn:H3;
    unfold checkRepoInDb, bindT, exec, retT in H3; simpl in H3;
    injection H3 as H3 <-.
  { eexists _, _. split; [unfold bindT, exec, retT; by rewrite <- !(assoc_L (++))|].
    right. right. eexists _, 3%nat. split_and!; [done|lia|lia|done]. }
  unfold bindT at 1. cbv beta.
  destruct (getRepogroupRels repoId sqlTx _) as [[e|repogroupRels] l4] eqn:H4;
    unfold getRepogroupRels, bindT, exec, retT in H4; simpl in H4;
    injection H4 as H4 <-.
  { eexists _, _. split; [unfold bindT, exec, retT; by rewrite <- !(assoc_L (++))|].
    right. right. eexists _, 4%nat. split_and!; [done|lia|lia|done]. }
  unfold bindT at 1. cbv beta.
  destruct (getAssignedRoles_trace userId repoId usergroupRels repogroupRels sqlTx
              (((((log ++ [BeginTx]) ++ [SelectUser]) ++ [SelectUsergroups]) ++ [SelectRepo])
                 ++ [SelectRepogroups])) as [[roles ->]|(e & n & Hn & ->)].
  - unfold bindT, exec, retT.
    destruct (driverFault dbInstance Commit) as [err|] eqn:Hc.
    + eexists _, _. split; [by rewrite <- !(assoc_L (++))|]. right. left. by eexists.
    + eexists _, _. split; [by rewrite <- !(assoc_L (++))|]. left. by eexists.
  - eexists _, _. split; [unfold bindT, exec, retT; by rewrite <- !(assoc_L (++))|].
    right. right. eexists _, (4 + n)%nat. split_and!; [done|lia|lia|].
    unfold queries. rewrite take_app_add'; [|done]. by rewrite <- !(assoc_L (++)).
Qed.



(** X4. Without driver faults, a request is gathered exactly when the
    user exists, a repo of that name exists, and every role the store
    grants to the user or to a usergroup of the closure, on the repo or on
    one of its repogroups, carries a label that decodes. *)
Theorem gather_succeeds_iff userId reponame dbInstance log :
  (∀ st, driverFault dbInstance st = None) →
  let db := sqliteDb dbInstance in
  (∃ reqDetails, (GatherRequestDetails userId reponame dbInstance log).1 = inr reqDetails) ↔
  (∃ u, u ∈ Users db ∧ Users_id u = userId) ∧
  (∃ repoId name repos,
     selectRepo db reponame = (repoId, name) :: repos ∧ grantsDecode db userId repoId).
Proof.
  intros Hf db. subst db.
  pose proof (GatherRequestDetails_no_driver_fault userId reponame dbInstance log Hf) as Hc.
  simpl in Hc.
  destruct (selectUser (sqliteDb dbInstance) userId) as [|[uid username] users] eqn:Hu.
  { rewrite Hc. apply selectUser_nil in Hu. split; [by intros [? ?]|tauto]. }
  apply selectUser_cons in Hu as (_ & u & Hu & Hid & _).
  destruct (selectRepo (sqliteDb dbInstance) reponame) as [|[repoId name] repos] eqn:Hr.
  { rewrite Hc. split; [by intros [? ?]|]. by intros (_ & ? & ? & ? & ? & _). }
  destruct Hc as [[Hd ->]|[Hd [msg ->]]].
  - split; [|by eexists]. intros _. split; [by exists u|]. by exists repoId, name, repos.
  - split; [by intros [? ?]|]. by intros (_ & ? & ? & ? & [= <- _ _] & ?).
Qed.

(** X4 for Liam (4) and Charlie on the example data. *)
Lemma gather_succeeds_iff_witness :
  (∃ reqDetails, (GatherRequestDetails 4 "Charlie" exampleInstance []).1 = inr reqDetails) ↔
  (∃ u, u ∈ Users exampleDb ∧ Users_id u = 4) ∧
  (∃ repoId name repos,
     selectRepo exampleDb "Charlie" = (repoId, name) :: repos ∧ grantsDecode exampleDb 4 repoId).
Proof. exact (gather_succeeds_iff 4 "Charlie" exampleInstance [] (λ _, eq_refl)). Defined.

(** X5. Without driver faults, the error of [GatherRequestDetails]
    wraps [sql.ErrNoRows] ([errors.Is]) exactly when no user has the id
    or no repo has the name. *)
Theorem no_rows_means_missing userId reponame dbInstance log :
  (∀ st, driverFault dbInstance st = None) →
  let db := sqliteDb dbInstance in
  (∃ err, (GatherRequestDetails userId reponame dbInstance log).1 = inl err ∧
          errorsIs err ErrNoRows) ↔
  (¬ ∃ u, u ∈ Users db ∧ Users_id u = userId) ∨
  (¬ ∃ r, r ∈ Repos db ∧ Repos_reponame r = reponame).
Proof.
  intros Hf db. subst db.
  pose proof (GatherRequestDetails_no_driver_fault userId reponame dbInstance log Hf) as Hc.
  simpl in Hc.
  destruct (selectUser (sqliteDb dbInstance) userId) as [|[uid username] users] eqn:Hu.
  { rewrite Hc. apply selectUser_nil in Hu. split; [tauto|]. intros _. eexists. split; [done|].
    simpl. tauto. }
  apply selectUser_cons in Hu as (_ & u & Hu & Hid & _).
  destruct (selectRepo (sqliteDb dbInstance) reponame) as [|[repoId name] repos] eqn:Hr.
  { rewrite Hc. apply selectRepo_nil in Hr. split; [tauto|]. intros _. eexists.
    split; [done|]. simpl. tauto. }
  apply selectRepo_cons in Hr as (_ & r & Hr & Hname & _).
  split.
  - intros (err & Herr & His). exfalso.
    destruct Hc as [[_ Hc]|[_ [msg Hc]]]; rewrite Hc in Herr; [done|].
    injection Herr as <-. simpl in His. by destruct His as [?|[?|[?|[]]]].
  - intros [Hn|Hn]; exfalso; apply Hn; eauto.
Qed.

(** X5 for the user id 9, which the example data does not hold. *)
Lemma no_rows_means_missing_witness :
  (∃ err, (GatherRequestDetails 9 "Charlie" exampleInstance []).1 = inl err ∧
          errorsIs err ErrNoRows) ↔
  (¬ ∃ u, u ∈ Users exampleDb ∧ Users_id u = 9) ∨
  (¬ ∃ r, r ∈ Repos exampleDb ∧ Repos_reponame r = "Charlie").
Proof. exact (no_rows_means_missing 9 "Charlie" exampleInstance [] (λ _, eq_refl)). Defined.

(** X6. A user that does not exist stops the request at the first
    query: the error is the no-rows error of [checkUserInDb], wrapped, no
    other query is issued, and the transaction is rolled back. *)
Theorem missing_user_stops_the_request userId reponame dbInstance log :
  driverFault dbInstance BeginTx = None →
  driverFault dbInstance SelectUser = None →
  (¬ ∃ u, u ∈ Users (sqliteDb dbInstance) ∧ Users_id u = userId) →
  GatherRequestDetails userId reponame dbInstance log =
  (inl (Errorf "error from checkUserInDb"
          (Errorf "error querying for user from DB" ErrNoRows)),
   log ++ [BeginTx; SelectUser; Rollback]).
Proof.
  intros Hb Hu Hn%selectUser_nil.
  unfold GatherRequestDetails, checkUserInDb, bindT, exec, retT. simpl.
  rewrite Hb, Hu, Hn. by rewrite <- !(assoc_L (++)).
Qed.

(** X6 for the user id 9 on the example data. *)
Lemma missing_user_stops_the_request_witness :
  GatherRequestDetails 9 "Charlie" exampleInstance [] =
  (inl (Errorf "error from checkUserInDb"
          (Errorf "error querying for user from DB" ErrNoRows)),
   [BeginTx; SelectUser; Rollback]).
Proof.
  refine (missing_user_stops_the_request 9 "Charlie" exampleInstance [] eq_refl eq_refl _).
  intros (u & Hu & Hid). vm_compute in Hu.
  repeat (apply elem_of_cons in Hu as [->|Hu]; [by vm_compute in Hid|]).
  by apply elem_of_nil in Hu.
Defined.





(** X9. The two edges of a gathered request: a user in no usergroup has
    an empty closure and only assignments made to the user itself; a repo
    in no repogroup has no repogroup relationship and only assignments
    made on the repo itself. *)
Theorem request_without_groups userId reponame dbInstance log reqDetails log' :
  GatherRequestDetails userId reponame dbInstance log = (inr reqDetails, log') →
  let db := sqliteDb dbInstance in
  ((∀ g, ¬ member db userId g) →
   reqUsergroupRelationships reqDetails = {| UserInGroups := []; UserGroupInGroups := [] |} ∧
   Forall (λ a, UserOrGroup a = UserUGR ∧ UserOrGroupID a = userId)
     (reqAssignedRoles reqDetails)) ∧
  ((∀ rg, ¬ inRepogroup db (reqRepoId reqDetails) rg) →
   reqRepogroupRels reqDetails = [] ∧
   Forall (λ a, RepoOrGroup a = RepoUGR ∧ RepoOrGroupID a = reqRepoId reqDetails)
     (reqAssignedRoles reqDetails)).
Proof.
  intros Hgather db. subst db.
  pose proof (decision_props.gathered_assignments _ _ _ _ _ _ Hgather) as Hroles.
  apply GatherRequestDetails_success in Hgather
    as (uid & username & users & repoId & name & repos & _ & _ & _ & -> & _).
  simpl in *. split.
  - intros Hnone. split.
    + rewrite scanUsergroups_spec. simpl. f_equal; apply elem_of_nil_inv.
      * intros uig Hin.
        assert (Hin' : uig ∈ UserInGroups
                  (scanUsergroups userId (selectUsergroups (sqliteDb dbInstance) userId) [] []))
          by (by rewrite scanUsergroups_spec).
        apply closure_memberships in Hin' as [_ Hm]. by apply Hnone in Hm.
      * intros e Hin.
        assert (Hin' : e ∈ UserGroupInGroups
                  (scanUsergroups userId (selectUsergroups (sqliteDb dbInstance) userId) [] []))
          by (by rewrite scanUsergroups_spec).
        apply closure_nestings in Hin' as [_ (d & Hm & _)]. by apply Hnone in Hm.
    + apply Forall_forall. intros a (p & r & label & _ & [Hp _] & ->)%Hroles.
      destruct p as [u|g]; [by subst|]. destruct Hp as (d & Hm & _). by apply Hnone in Hm.
  - intros Hnone. split.
    + apply elem_of_nil_inv. intros rel (g & -> & Hg)%list_elem_of_fmap.
      apply (Hnone g). unfold inRepogroup, selectRepogroups in *.
      apply list_elem_of_fmap in Hg as (m & -> & [? ?]%list_elem_of_filter). by exists m.
    + apply Forall_forall. intros a (p & r & label & _ & [_ Hr] & ->)%Hroles.
      destruct r as [rp|rg]; [by subst|]. by apply Hnone in Hr.
Qed.

(** X9 for Olivia (1) and Alpha (1), which are in no group. *)
Lemma request_without_groups_witness :
  let db := exampleDb in
  let reqDetails := requestOf exampleDb 1 "Olivia" "Alpha" 1 in
  ((∀ g, ¬ member db 1 g) →
   reqUsergroupRelationships reqDetails = {| UserInGroups := []; UserGroupInGroups := [] |} ∧
   Forall (λ a, UserOrGroup a = UserUGR ∧ UserOrGroupID a = 1)
     (reqAssignedRoles reqDetails)) ∧
  ((∀ rg, ¬ inRepogroup db (reqRepoId reqDetails) rg) →
   reqRepogroupRels reqDetails = [] ∧
   Forall (λ a, RepoOrGroup a = RepoUGR ∧ RepoOrGroupID a = reqRepoId reqDetails)
     (reqAssignedRoles reqDetails)).
Proof.
  exact (request_without_groups 1 "Alpha" exampleInstance []
           (requestOf exampleDb 1 "Olivia" "Alpha" 1) _ ltac:(vm_compute; reflexivity)).
Defined.

(** X10. The closure lists every membership and every nesting once,
    also when the store holds the same membership or nesting row several
    times. *)
Theorem closure_records_have_no_duplicates userId sqlTx log usergroupRels :
  (getUsergroupsRecursive userId sqlTx log).1 = inr usergroupRels →
  NoDup (UserInGroups usergroupRels) ∧ NoDup (UserGroupInGroups usergroupRels).
Proof.
  unfold getUsergroupsRecursive, bindT, exec, retT. simpl.
  destruct (fault sqlTx SelectUsergroups); [done|]. intros [= <-].
  rewrite scanUsergroups_spec. simpl.
  pose proof (NoDup_selectUsergroups (snapshot sqlTx) userId) as Hnd. split.
  - apply NoDup_omap_inj; [|done]. intros [p [c|]] [p' [c'|]] z; unfold directOf; simpl;
      try done. by intros [= <-] [= <-].
  - apply NoDup_omap_inj; [|done]. intros [p [c|]] [p' [c'|]] z; unfold nestedOf; simpl;
      try done. by intros [= <-] [= <- <-].
Qed.

(** X10 for Liam (4) on a store that holds his membership and a nesting
    row twice. *)
Lemma closure_records_have_no_duplicates_witness :
  let usergroupRels :=
    {| UserInGroups := [ {| UserId := 4; UsergroupId := 1 |} ];
       UserGroupInGroups := [ {| ParentUsergroupId := 1; ChildUsergroupId := 2 |};
                              {| ParentUsergroupId := 2; ChildUsergroupId := 3 |} ] |} in
  NoDup (UserInGroups usergroupRels) ∧ NoDup (UserGroupInGroups usergroupRels).
Proof.
  exact (closure_records_have_no_duplicates 4
           {| snapshot := repeatedRowsDb; fault := noFault |} [] _
           ltac:(vm_compute; reflexivity)).
Defined.

End gather_extras.

(** ** The facts and the rules of the authorizer text *)

Section rules_extras.
Import biscuit authz authz_props dblogic_props decision_props gather_props rules_props
  verdict_props.

(** X11. The symbols handed to the evaluator do not collide: each of
    the four namespaces for ids is injective, any two of them are
    disjoint, and the namespaces of roles and of actions are injective. *)
Theorem namespaces_do_not_collide :
  (∀ a b, namespaceUser a = namespaceUser b → a = b) ∧
  (∀ a b, namespaceUG a = namespaceUG b → a = b) ∧
  (∀ a b, namespaceRepo a = namespaceRepo b → a = b) ∧
  (∀ a b, namespaceRG a = namespaceRG b → a = b) ∧
  (∀ a b : string, namespaceRole a = namespaceRole b → a = b) ∧
  (∀ a b : string, namespaceAction a = namespaceAction b → a = b) ∧
  (∀ a b, namespaceUser a ≠ namespaceUG b ∧ namespaceUser a ≠ namespaceRepo b ∧
          namespaceUser a ≠ namespaceRG b ∧ namespaceUG a ≠ namespaceRepo b ∧
          namespaceUG a ≠ namespaceRG b ∧ namespaceRepo a ≠ namespaceRG b).
Proof.
  split_and!.
  - apply namespaceUser_inj.
  - apply namespaceUG_inj.
  - apply namespaceRepo_inj.
  - apply namespaceRG_inj.
  - intros a b. apply namespaceAuthz_inj.
  - intros a b. apply namespaceAuthz_inj.
  - intros a b. split_and!; cbv -[pretty]; congruence.
Qed.



(** X13. On the facts built for a gathered request, every role fact
    names a principal over which the rules give the user of the token
    authority and a resource over which they give the repo of the
    operation authority: the two authority atoms of the policy hold of
    the principal and the resource of each role fact. *)
Theorem role_facts_are_within_authority userId reponame dbInstance log
    reqDetails log' operation now d :
  dblogic.GatherRequestDetails userId reponame dbInstance log = (inr reqDetails, log') →
  authzDetailsFor reqDetails operation now = Returned d →
  let W := [fact_user (namespaceUser userId)] ++ authzFacts d in
  ∀ userOrGroup repoOrGroup role,
    fact_role userOrGroup repoOrGroup role ∈ W →
    user_authority W (namespaceUser userId) userOrGroup ∧
    repo_authority W (namespaceRepo (dblogic.reqRepoId reqDetails)) repoOrGroup.
Proof.
  intros Hgather Hd W x y ro Hin. subst W.
  pose proof (gathered_assignments _ _ _ _ _ _ Hgather) as Hroles.
  apply authzDetailsFor_Returned in Hd as Hd'. destruct Hd' as (_ & _ & Hall).
  apply GatherRequestDetails_success in Hgather as Hs.
  destruct Hs as (uid & username & users & repoId & name & repos & _ & _ & _ & Heq & _).
  apply authzDetailsFor_fields in Hd as (_ & Hrels & Hrepo & Hrg & _).
  rewrite elem_of_app, list_elem_of_singleton in Hin.
  destruct Hin as [[=]|(ar & Har & -> & -> & ->)%elem_of_authzFacts_role].
  destruct (Forall2_elem_of_r _ _ _ _ Hall Har) as (a & Ha & Hfact).
  apply Hroles in Ha as (p & r & label & Hgr & [Hp Hr] & ->).
  apply roleFact_namespaced in Hfact as [-> ->]. subst reqDetails.
  simpl in Hrels, Hrepo, Hrg, Hp, Hr. simpl dblogic.reqRepoId. split.
  - apply (user_authority_request _ _ _ _ Hrels). destruct p as [u|g]; [left; by subst|].
    right. exists g. split; [done|]. by apply reqReachable_closure.
  - rewrite <- Hrepo. apply repo_authority_request. rewrite Hrepo, Hrg.
    destruct r as [rp|rg]; [left; by subst|]. right.
    destruct Hr as (m & Hm & Hmr & <-).
    exists {| dblogic.RepogroupId := dblogic.rgm_repogroup_id m; dblogic.RepoId := repoId |}.
    split; [|done]. apply list_elem_of_fmap. eexists. split; [done|].
    apply list_elem_of_fmap. exists m. split; [done|]. by apply list_elem_of_filter.
Qed.

(** X13 for Liam (4) reading Charlie (3). *)
Lemma role_facts_are_within_authority_witness :
  ∃ d, authzDetailsFor liamCharlie Read exampleNow = Returned d ∧
  let W := [fact_user (namespaceUser 4)] ++ authzFacts d in
  ∀ userOrGroup repoOrGroup role,
    fact_role userOrGroup repoOrGroup role ∈ W →
    user_authority W (namespaceUser 4) userOrGroup ∧
    repo_authority W (namespaceRepo (dblogic.reqRepoId liamCharlie)) repoOrGroup.
Proof.
  eexists. split; [vm_compute; reflexivity|].
  exact (role_facts_are_within_authority 4 "Charlie" dblogic.exampleInstance []
           liamCharlie _ Read exampleNow _
           ltac:(vm_compute; reflexivity) ltac:(vm_compute; reflexivity)).
Defined.

(** X14. A role decoded from a label of the store and handed to
    [CheckAuthz] reaches the evaluator under the same label: the role
    fact of the assignment names the role [role:<label>]. A label that
    does not decode gives [UnknownRole], on which the loop of [CheckAuthz]
    ends the process. *)
Theorem decoded_role_round_trip label isRepogroup a :
  dblogic.RepoRole a = (dblogic.repoRoleStrToEnum label isRepogroup).1 →
  match (dblogic.repoRoleStrToEnum label isRepogroup).2 with
  | None => ∀ ar, roleFact a = Returned ar → Role ar = "role:" +:+ label
  | Some _ => dblogic.RepoRole a = dblogic.UnknownRole ∧ ∃ msg, roleFact a = Fatal msg
  end.
Proof.
  intros Hrole.
  destruct (dblogic.repoRoleStrToEnum label isRepogroup).2 as [err|] eqn:Herr.
  - apply aggregator_props.repoRoleStrToEnum_error in Herr as [Hun _].
    rewrite Hun in Hrole. split; [done|]. apply roleFact_Fatal.
    intros (_ & _ & Hr). rewrite Hrole in Hr. by destruct Hr as [?|[?|?]].
  - intros ar (_ & l & Hl & ->)%roleFact_Returned.
    rewrite Hrole, (roleLabel_decodes isRepogroup label Herr) in Hl. by injection Hl as <-.
Qed.

(** X14 for the label writer on a repogroup. *)
Lemma decoded_role_round_trip_witness :
  (∃ ar, roleFact (assignmentOf (Usergroup 1) (Repogroup 1) "writer") = Returned ar) ∧
  (∀ ar, roleFact (assignmentOf (Usergroup 1) (Repogroup 1) "writer") = Returned ar →
         Role ar = "role:" +:+ "writer").
Proof.
  split; [by eexists|].
  exact (decoded_role_round_trip "writer" true
           (assignmentOf (Usergroup 1) (Repogroup 1) "writer") eq_refl).
Defined.

End rules_extras.

(** ** The verdict *)

Section verdict_extras.
Import biscuit authz authz_props dblogic_props decision_props gather_props rules_props
  verdict_props.













End verdict_extras.
